(** * Realtime-API: the amplitude resampler and the speech visual

    A shallow embedding of [src/utils/wav_renderer.ts] (the module-level
    [dataMap], [normalizeArray] and [WavRenderer.drawSpeechVisual]) and of
    the render loop of [src/pages/ConsolePage.tsx].

    Objects.  Result arrays live in a store and are named by their location,
    so that "the same array instance" is equality of locations.  The
    [WeakMap] is keyed by the identity of the sample buffer.

    Numbers.  The program is embedded twice.

    - With exact numbers ([number]: a rational, one of the two infinities,
      or NaN; a zero carries no sign, nothing is rounded, arrays have no
      length limit).  This embedding carries the store, the cache and the
      drawing; of the numbers it is used for what does not depend on
      rounding: which calls fail on a negative length, what is allocated
      and cached, which operations are drawn, and the values that the
      machine computes without rounding error.

    - In [Binary64], with the doubles of the machine (IEEE 754 binary64,
      round to nearest even, signed zeros, NaN) and the length limit
      [2^32 - 1] of [new Array].  It embeds the numeric body of
      [normalizeArray] (lines 25 to 58) and is used for what the values of
      the output are: the index [Math.floor(i * (m / n))] a sample is added
      to, the sums, quotients and interpolations.

    In both, NaN propagation, [undefined] read from holes and from
    out-of-range indices, the [RangeError] of [new Array] and writes past
    the end of an array follow the language.  A sample buffer holds finite
    amplitudes; the target length [m] is an integer. *)

From Stdlib Require Import QArith Qcanon Qround Qabs ZArith Lia Lqa Floats.
From stdpp Require Import base numbers list strings gmap pretty.

Local Open Scope Z_scope.

(** ** Numbers *)

Inductive number :=
  | Fin (q : Qc)
  | PInf
  | NInf
  | NaN.

Inductive value :=
  | Undefined
  | Num (x : number).

Global Instance number_eq_dec : EqDecision number.
Proof. solve_decision. Defined.
Global Instance value_eq_dec : EqDecision value.
Proof. solve_decision. Defined.

Definition of_Z (z : Z) : number := Fin (Qc_of_Z z).
Definition of_nat (n : nat) : number := of_Z (Z.of_nat n).

(** [ToNumber]: [undefined] converts to NaN. *)
Definition ToNumber (v : value) : number :=
  match v with
  | Undefined => NaN
  | Num x => x
  end.

Definition Qc_sgn (q : Qc) : Z := Z.sgn (Qnum q).

Definition num_neg (x : number) : number :=
  match x with
  | Fin q => Fin (- q)%Qc
  | PInf => NInf
  | NInf => PInf
  | NaN => NaN
  end.

(** An infinity of the given sign; sign [0] has none. *)
Definition Inf_of_sgn (s : Z) : number :=
  match s with
  | Z0 => NaN
  | Zpos _ => PInf
  | Zneg _ => NInf
  end.

Definition num_add (x y : number) : number :=
  match x, y with
  | NaN, _ | _, NaN => NaN
  | Fin a, Fin b => Fin (a + b)%Qc
  | PInf, NInf | NInf, PInf => NaN
  | PInf, _ | _, PInf => PInf
  | NInf, _ | _, NInf => NInf
  end.

Definition num_sub (x y : number) : number := num_add x (num_neg y).

Definition num_mul (x y : number) : number :=
  match x, y with
  | NaN, _ | _, NaN => NaN
  | Fin a, Fin b => Fin (a * b)%Qc
  | Fin a, PInf | PInf, Fin a => Inf_of_sgn (Qc_sgn a)
  | Fin a, NInf | NInf, Fin a => Inf_of_sgn (- Qc_sgn a)
  | PInf, PInf | NInf, NInf => PInf
  | PInf, NInf | NInf, PInf => NInf
  end.

Definition num_div (x y : number) : number :=
  match x, y with
  | NaN, _ | _, NaN => NaN
  | Fin a, Fin b =>
      if decide (b = 0%Qc) then Inf_of_sgn (Qc_sgn a) else Fin (a / b)%Qc
  | Fin _, (PInf | NInf) => Fin 0%Qc
  | PInf, Fin b => if decide (Qc_sgn b = -1) then NInf else PInf
  | NInf, Fin b => if decide (Qc_sgn b = -1) then PInf else NInf
  | (PInf | NInf), (PInf | NInf) => NaN
  end.

Definition Qcabs (q : Qc) : Qc := Q2Qc (Qabs q).
Definition Qcmax (a b : Qc) : Qc := if decide (a ≤ b)%Qc then b else a.

Definition Math_abs (x : number) : number :=
  match x with
  | Fin q => Fin (Qcabs q)
  | PInf | NInf => PInf
  | NaN => NaN
  end.

Definition Math_max (x y : number) : number :=
  match x, y with
  | NaN, _ | _, NaN => NaN
  | PInf, _ | _, PInf => PInf
  | NInf, z | z, NInf => z
  | Fin a, Fin b => Fin (Qcmax a b)
  end.

Definition Math_floor (x : number) : number :=
  match x with
  | Fin q => of_Z (Qfloor q)
  | _ => x
  end.

Definition Math_ceil (x : number) : number :=
  match x with
  | Fin q => of_Z (Qceiling q)
  | _ => x
  end.

(** [x >= y]; any comparison with NaN is false. *)
Definition num_ge (x y : number) : bool :=
  match x, y with
  | NaN, _ | _, NaN => false
  | PInf, _ | _, NInf => true
  | NInf, _ | _, PInf => false
  | Fin a, Fin b => bool_decide (b ≤ a)%Qc
  end.

Declare Scope num_scope.
Delimit Scope num_scope with num.
Bind Scope num_scope with number.
Infix "+" := num_add : num_scope.
Infix "-" := num_sub : num_scope.
Infix "*" := num_mul : num_scope.
Infix "/" := num_div : num_scope.
Infix ">=?" := num_ge (at level 70) : num_scope.

(** ** Arrays *)

(** An element index: a number names an element when it is a non-negative
    integer; any other number is a property name that is no element. *)
Definition array_index (x : number) : option nat :=
  match x with
  | Fin q =>
      if decide (Qden q = 1%positive ∧ 0 ≤ Qnum q)
      then Some (Z.to_nat (Qnum q)) else None
  | _ => None
  end.

(** A [Float32Array] of finite amplitudes, with the identity of the object. *)
Record Float32Array := {
  buffer_id : nat;
  samples : list Qc
}.

(** [data[x]] on the typed array. *)
Definition typed_get (data : list Qc) (x : number) : value :=
  match array_index x with
  | Some i => from_option (λ q, Num (Fin q)) Undefined (data !! i)
  | None => Undefined
  end.

(** An [Array] is the list of its elements, a hole being [undefined].
    [a[x]]: a name that is no element reads [undefined] (the program never
    gives an array a named property: every index it writes is a loop
    counter or the floor of a non-negative quotient). *)
Definition array_get (a : list value) (x : number) : value :=
  match array_index x with
  | Some i => default Undefined (a !! i)
  | None => Undefined
  end.

(** [a[x] = v]: in range the element is replaced; past the end the array
    grows, the gap being holes. *)
Definition array_set (a : list value) (x : number) (v : value) : list value :=
  match array_index x with
  | Some i =>
      if decide (i < length a)%nat then <[i:=v]> a
      else a ++ replicate (i - length a) Undefined ++ [v]
  | None => a
  end.

(** [new Array(m).fill(v)] and [a.fill(v)]: every element becomes [v]. *)
Definition fill (a : list value) (v : value) : list value :=
  replicate (length a) v.

(** ** The store and the monad of the program *)

Inductive error := RangeError.

Inductive completion (A : Type) :=
  | Normal (a : A)
  | Throw (e : error).
Arguments Normal {A} a.
Arguments Throw {A} e.

Inductive draw_op :=
  | clearRect (x y w h : number)
  | beginPath
  | moveTo (x y : number)
  | lineTo (x y : number)
  | closePath
  | set_fillStyle (s : string)
  | fill_path.

(** [arrays]: the result arrays handed out so far, a location being an
    index.  [dataMap]: the module-level [WeakMap], from the identity of a
    buffer to its cache object [mKey ↦ dKey ↦ array]; the cache objects are
    reachable through [dataMap] only, so they are kept by value inside it.
    [contexts]: the calls each 2D context has received, oldest first. *)
Record State := {
  arrays : list (list value);
  dataMap : gmap nat (gmap string (gmap string nat));
  contexts : gmap nat (list draw_op)
}.

Definition initial : State :=
  {| arrays := []; dataMap := ∅; contexts := ∅ |}.

Definition M (A : Type) : Type := State → completion A * State.

Global Instance M_ret : MRet M := λ A a σ, (Normal a, σ).
Global Instance M_bind : MBind M := λ A B f c σ,
  match c σ with
  | (Normal a, σ') => f a σ'
  | (Throw e, σ') => (Throw e, σ')
  end.

Definition throw {A} (e : error) : M A := λ σ, (Throw e, σ).
Definition gets {A} (f : State → A) : M A := λ σ, (Normal (f σ), σ).
Definition modify (f : State → State) : M unit := λ σ, (Normal tt, f σ).

(** [new Array(m)]: [m] holes, or a [RangeError] on a negative length. *)
Definition new_Array (m : Z) : M (list value) :=
  if decide (m < 0) then throw RangeError
  else mret (replicate (Z.to_nat m) Undefined).

(** Enter a finished array in the store; its location is fresh. *)
Definition alloc (a : list value) : M nat := λ σ,
  (Normal (length (arrays σ)),
   {| arrays := arrays σ ++ [a];
      dataMap := dataMap σ;
      contexts := contexts σ |}).

Definition set_dataMap (f : gmap nat (gmap string (gmap string nat)) →
                            gmap nat (gmap string (gmap string nat))) : M unit :=
  modify (λ σ, {| arrays := arrays σ;
                  dataMap := f (dataMap σ);
                  contexts := contexts σ |}).

(** One call on a 2D context. *)
Definition ctx_call (ctx : nat) (op : draw_op) : M unit :=
  modify (λ σ, {| arrays := arrays σ;
                  dataMap := dataMap σ;
                  contexts := <[ctx := default [] (contexts σ !! ctx) ++ [op]]>
                                (contexts σ) |}).

(** ** normalizeArray *)

(** The whole function, with the store and the cache, on exact numbers; the
    module [Binary64] below has its numeric body on doubles. *)

Definition bool_toString (b : bool) : string :=
  if b then "true" else "false".

(** The body of the first loop of the downsampling branch, at index [i];
    the state of the loop is the pair of [result] and [count]. *)
Definition downsample_step (data : list Qc) (m : Z) (downsamplePeaks : bool)
    (rc : list value * list value) (i : nat) : list value * list value :=
  let n := of_nat (length data) in
  let index := Math_floor (of_nat i * (of_Z m / n))%num in
  let result :=
    if downsamplePeaks then
      array_set rc.1 index
        (Num (Math_max (ToNumber (array_get rc.1 index))
                       (Math_abs (ToNumber (typed_get data (of_nat i))))))
    else
      array_set rc.1 index
        (Num (ToNumber (array_get rc.1 index)
              + Math_abs (ToNumber (typed_get data (of_nat i))))%num) in
  let count :=
    array_set rc.2 index (Num (ToNumber (array_get rc.2 index) + of_Z 1)%num) in
  (result, count).

(** The body of the second loop: [result[i] = result[i] / count[i]]. *)
Definition average_step (count : list value) (result : list value) (i : nat)
    : list value :=
  array_set result (of_nat i)
    (Num (ToNumber (array_get result (of_nat i))
          / ToNumber (array_get count (of_nat i)))%num).

(** The body of the loop of the upsampling branch. *)
Definition upsample_step (data : list Qc) (m : Z) (result : list value)
    (i : nat) : list value :=
  let n := of_nat (length data) in
  let index := ((of_nat i * (n - of_Z 1)) / (of_Z m - of_Z 1))%num in
  let low := Math_floor index in
  let high := Math_ceil index in
  let t := (index - low)%num in
  if (high >=? n)%num then
    array_set result (of_nat i) (typed_get data (n - of_Z 1)%num)
  else
    array_set result (of_nat i)
      (Num (ToNumber (typed_get data low) * (of_Z 1 - t)
            + ToNumber (typed_get data high) * t)%num).

(** The downsampling branch (lines 29 to 45); [count0] is the array the
    second [new Array(m)] returned. *)
Definition downsample (data : list Qc) (m : Z) (downsamplePeaks : bool)
    (result count0 : list value) : list value :=
  let result := fill result (Num (of_Z 0)) in
  let count := fill count0 (Num (of_Z 0)) in
  let rc := foldl (downsample_step data m downsamplePeaks)
              (result, count) (seq 0 (length data)) in
  if negb downsamplePeaks then
    foldl (average_step rc.2) rc.1 (seq 0 (length rc.1))
  else rc.1.

(** The upsampling branch (lines 47 to 57). *)
Definition upsample (data : list Qc) (m : Z) (result : list value)
    : list value :=
  foldl (upsample_step data m) result (seq 0 (Z.to_nat m)).

(** Lines 25 to 58; [result] is the array the first [new Array(m)]
    returned. *)
Definition resample (data : list Qc) (m : Z) (downsamplePeaks : bool)
    (result : list value) : M (list value) :=
  if decide (m ≤ Z.of_nat (length data)) then
    count0 ← new_Array m;
    mret (downsample data m downsamplePeaks result count0)
  else
    mret (upsample data m result).

(** [cache[mKey][dKey]] for the cache object of buffer [id]. *)
Definition cache_entry (dm : gmap nat (gmap string (gmap string nat)))
    (id : nat) (mKey dKey : string) : option nat :=
  match dm !! id with
  | Some cache =>
      match cache !! mKey with
      | Some by_mode => by_mode !! dKey
      | None => None
      end
  | None => None
  end.

Definition cached (σ : State) (id : nat) (mKey dKey : string) : option nat :=
  cache_entry (dataMap σ) id mKey dKey.

(** Lines 18 to 20: the cache object of the buffer is created if absent and
    entered in [dataMap], then its [mKey] object is created if absent. *)
Definition cache_touch (id : nat) (mKey : string)
    (dm : gmap nat (gmap string (gmap string nat)))
    : gmap nat (gmap string (gmap string nat)) :=
  let cache := default ∅ (dm !! id) in
  <[id := <[mKey := default ∅ (cache !! mKey)]> cache]> dm.

(** Line 60: [cache[mKey][dKey] = result], seen from [dataMap]. *)
Definition cache_store (id : nat) (mKey dKey : string) (l : nat)
    (dm : gmap nat (gmap string (gmap string nat)))
    : gmap nat (gmap string (gmap string nat)) :=
  let cache := default ∅ (dm !! id) in
  <[id := <[mKey := <[dKey := l]> (default ∅ (cache !! mKey))]> cache]> dm.

(** The result array is entered in the store once it is filled: no other
    code can reach it before [normalizeArray] returns. *)
Definition normalizeArray (data : Float32Array) (m : Z)
    (downsamplePeaks memoize : bool) : M nat :=
  let id := buffer_id data in
  let mKey := pretty m in
  let dKey := bool_toString downsamplePeaks in
  _ ← (if memoize then set_dataMap (cache_touch id mKey) else mret tt);
  hit ← (if memoize then gets (λ σ, cached σ id mKey dKey) else mret None);
  match hit with
  | Some l => mret l
  | None =>
      result0 ← new_Array m;
      result ← resample (samples data) m downsamplePeaks result0;
      l ← alloc result;
      _ ← (if memoize then set_dataMap (cache_store id mKey dKey l)
           else mret tt);
      mret l
  end.

(** ** drawSpeechVisual *)

Record HTMLCanvasElement := {
  width : nat;
  height : nat
}.

Inductive speakingState := ai | user.

Fixpoint for_each (l : list nat) (body : nat → M unit) : M unit :=
  match l with
  | [] => mret tt
  | i :: l' => _ ← body i; for_each l' body
  end.

Section Visualizer.
(** The transcendental functions and the clock are parameters:
    [Date_now i] is what [Date.now()] returns in iteration [i]. *)
Variables (Math_sin Math_cos : number → number) (Math_PI : number).
Variable Date_now : nat → number.

Definition baseRadius : number := of_Z 40.
Definition numberOfPoints : nat := 50.
Definition squishFactorMax : number := of_Z 5.
Definition squishSpeed : number := of_Z 200.

(** The angle of iteration [i]. *)
Definition angle (i : nat) : number :=
  ((of_nat i / of_nat numberOfPoints) * Math_PI * of_Z 2)%num.

(** The point [(x, y)] of iteration [i]. *)
Definition path_point (canvas : HTMLCanvasElement) (i : nat)
    : number * number :=
  let centerX := (of_nat (width canvas) / of_Z 2)%num in
  let centerY := (of_nat (height canvas) / of_Z 2)%num in
  let squishFactor :=
    (Math_sin (Date_now i / squishSpeed + angle i * of_Z 3)
     * squishFactorMax)%num in
  let radius := (baseRadius + squishFactor)%num in
  ((centerX + Math_cos (angle i) * radius)%num,
   (centerY + Math_sin (angle i) * radius)%num).

Definition path_step (canvas : HTMLCanvasElement) (ctx : nat) (i : nat)
    : M unit :=
  let p := path_point canvas i in
  if decide (i = 0%nat) then ctx_call ctx (moveTo p.1 p.2)
  else ctx_call ctx (lineTo p.1 p.2).

Definition drawSpeechVisual (canvas : HTMLCanvasElement) (ctx : nat)
    (data : Float32Array) (speaking : speakingState) : M unit :=
  points ← normalizeArray data 10 true false;
  _ ← ctx_call ctx (clearRect (of_Z 0) (of_Z 0)
                      (of_nat (width canvas)) (of_nat (height canvas)));
  _ ← ctx_call ctx beginPath;
  _ ← for_each (seq 0 (S numberOfPoints)) (path_step canvas ctx);
  _ ← ctx_call ctx closePath;
  _ ← ctx_call ctx (set_fillStyle "black");
  ctx_call ctx fill_path.

(** The call iteration [i] makes on the context. *)
Definition path_op (canvas : HTMLCanvasElement) (i : nat) : draw_op :=
  let p := path_point canvas i in
  if decide (i = 0%nat) then moveTo p.1 p.2 else lineTo p.1 p.2.

(** The calls of one frame, in order: a function of the canvas size and of
    the clock alone. *)
Definition frame (canvas : HTMLCanvasElement) : list draw_op :=
  [clearRect (of_Z 0) (of_Z 0) (of_nat (width canvas)) (of_nat (height canvas));
   beginPath;
   moveTo (path_point canvas 0).1 (path_point canvas 0).2]
  ++ ((λ i, lineTo (path_point canvas i).1 (path_point canvas i).2)
      <$> seq 1 numberOfPoints)
  ++ [closePath; set_fillStyle "black"; fill_path].
End Visualizer.

Global Instance draw_op_eq_dec : EqDecision draw_op.
Proof. solve_decision. Defined.

(** How often [op] occurs in [ops]. *)
Definition occurrences (op : draw_op) (ops : list draw_op) : nat :=
  length (filter (λ o, o = op) ops).

(** A clock that stands still and a flat wave, for the worked scenarios. *)
Definition flat (x : number) : number := of_Z 0.
Definition frozen (t : Z) (i : nat) : number := of_Z t.

(** The calls context [ctx] has received. *)
Definition ctx_log (σ : State) (ctx : nat) : list draw_op :=
  default [] (contexts σ !! ctx).

(** The store after context [ctx] received the calls [ops]. *)
Definition emit (ctx : nat) (ops : list draw_op) (σ : State) : State :=
  {| arrays := arrays σ;
     dataMap := dataMap σ;
     contexts := <[ctx := ctx_log σ ctx ++ ops]> (contexts σ) |}.

(** ** Notions the properties are stated with *)

(** [c], run from [σ], returns normally the array [a]. *)
Definition returns_array (c : M nat) (σ : State) (a : list value) : Prop :=
  ∃ l σ', c σ = (Normal l, σ') ∧ arrays σ' !! l = Some a.

(** The call runs the algorithm: it is not answered from the cache. *)
Definition computes (data : Float32Array) (m : Z) (downsamplePeaks memoize : bool)
    (σ : State) : Prop :=
  memoize = true →
  cached σ (buffer_id data) (pretty m) (bool_toString downsamplePeaks) = None.

(** The array a call that runs the algorithm with [0 ≤ m] returns. *)
Definition resample_val (data : list Qc) (m : Z) (downsamplePeaks : bool)
    : list value :=
  let holes := replicate (Z.to_nat m) Undefined in
  if decide (m ≤ Z.of_nat (length data))
  then downsample data m downsamplePeaks holes holes
  else upsample data m holes.

(** Every cached location names an array of the store, and no two cache
    entries share a location. *)
Definition cache_wf (σ : State) : Prop :=
  (∀ id mKey dKey l,
     cached σ id mKey dKey = Some l → (l < length (arrays σ))%nat) ∧
  (∀ id mKey dKey id' mKey' dKey' l,
     cached σ id mKey dKey = Some l → cached σ id' mKey' dKey' = Some l →
     id = id' ∧ mKey = mKey' ∧ dKey = dKey').

(** A call of [normalizeArray], and the store after a sequence of calls. *)
Record call := {
  call_data : Float32Array;
  call_m : Z;
  call_peaks : bool;
  call_memoize : bool
}.

Definition do_call (σ : State) (c : call) : State :=
  (normalizeArray (call_data c) (call_m c) (call_peaks c) (call_memoize c) σ).2.

Definition run_calls (cs : list call) (σ : State) : State :=
  foldl do_call σ cs.

(** [bucket(i) = floor(i * m / n)]. *)
Definition bucket (n : nat) (m : Z) (i : nat) : nat :=
  Z.to_nat (Z.of_nat i * m / Z.of_nat n).

(** The indices below [k] that fall in bucket [j], in increasing order. *)
Definition bucket_indices (n : nat) (m : Z) (k j : nat) : list nat :=
  filter (λ i, bucket n m i = j) (seq 0 k).

Definition sample_abs (data : list Qc) (i : nat) : Qc :=
  Qcabs (default 0%Qc (data !! i)).

(** The absolute values of the samples of bucket [j]. *)
Definition bucket_abs (data : list Qc) (m : Z) (j : nat) : list Qc :=
  sample_abs data <$> bucket_indices (length data) m (length data) j.

Definition Qcsum (l : list Qc) : Qc := foldl Qcplus 0%Qc l.

Definition mean (l : list Qc) : Qc :=
  (Qcsum l / Qc_of_Z (Z.of_nat (length l)))%Qc.

(** [v] is the greatest element of [l], or [0] if [l] is empty. *)
Definition is_peak (l : list Qc) (v : Qc) : Prop :=
  (∀ x, x ∈ l → (x ≤ v)%Qc) ∧ (if l is [] then v = 0%Qc else v ∈ l).

(** The interpolated value at output index [i], in the words of the
    specification. *)
Definition lerp (data : list Qc) (m : Z) (i : nat) : option Qc :=
  let n := Z.of_nat (length data) in
  let pos := (Qc_of_Z (Z.of_nat i * (n - 1)) / Qc_of_Z (m - 1))%Qc in
  let low := Qfloor pos in
  let high := Qceiling pos in
  let t := (pos - Qc_of_Z low)%Qc in
  if decide (n ≤ high) then last data
  else
    x ← data !! Z.to_nat low;
    y ← data !! Z.to_nat high;
    Some (x * (1 - t) + y * t)%Qc.

(** The value the upsampling loop assigns to [result[i]] (line 53 or 55). *)
Definition upsample_value (data : list Qc) (m : Z) (i : nat) : value :=
  let n := of_nat (length data) in
  let index := ((of_nat i * (n - of_Z 1)) / (of_Z m - of_Z 1))%num in
  let low := Math_floor index in
  let high := Math_ceil index in
  let t := (index - low)%num in
  if (high >=? n)%num then typed_get data (n - of_Z 1)%num
  else Num (ToNumber (typed_get data low) * (of_Z 1 - t)
            + ToNumber (typed_get data high) * t)%num.

(** Literals [a/b] and the buffers of the worked scenarios. *)
Definition ratio (a : Z) (b : positive) : Qc := Q2Qc (a # b).

Definition scenario_peak : list Qc :=
  [ratio 1 10; ratio (-9) 10; ratio 3 10; ratio 2 10].

Definition scenario_ramp : list Qc := [ratio 0 1; ratio 1 1].

(** What the first loop accumulates over the absolute values [l]. *)
Definition accumulate (downsamplePeaks : bool) (l : list Qc) : Qc :=
  if downsamplePeaks then foldl Qcmax 0%Qc l else foldl Qcplus 0%Qc l.

(** [result[j]] and [count[j]] after the iterations [0 .. k-1] of the first
    loop of the downsampling branch. *)
Definition result_at (data : list Qc) (m : Z) (downsamplePeaks : bool)
    (k j : nat) : value :=
  Num (Fin (accumulate downsamplePeaks
              (sample_abs data <$> bucket_indices (length data) m k j))).

Definition count_at (data : list Qc) (m : Z) (k j : nat) : value :=
  Num (of_nat (length (bucket_indices (length data) m k j))).

(** The point [(x, y)] is finite and within [reach] of the centre of the
    canvas, on both axes. *)
Definition near_centre (canvas : HTMLCanvasElement) (reach : Z)
    (x y : number) : Prop :=
  ∃ qx qy : Qc,
    x = Fin qx ∧ y = Fin qy ∧
    (Qc_of_Z (Z.of_nat (width canvas)) / Qc_of_Z 2 - Qc_of_Z reach ≤ qx)%Qc ∧
    (qx ≤ Qc_of_Z (Z.of_nat (width canvas)) / Qc_of_Z 2 + Qc_of_Z reach)%Qc ∧
    (Qc_of_Z (Z.of_nat (height canvas)) / Qc_of_Z 2 - Qc_of_Z reach ≤ qy)%Qc ∧
    (qy ≤ Qc_of_Z (Z.of_nat (height canvas)) / Qc_of_Z 2 + Qc_of_Z reach)%Qc.

(** ** ConsolePage: the render loop *)

(** A mounted canvas element with its 2D context, the object
    [getContext('2d')] returns and the loop keeps in [clientCtx] or
    [serverCtx]; the loop relies on there being one. *)
Record mounted_canvas := {
  element : HTMLCanvasElement;
  context2d : nat
}.

(** [new Float32Array([0])], drawn for a source that is not live; [id] is
    the identity of the new object. *)
Definition silence (id : nat) : Float32Array :=
  {| buffer_id := id; samples := [Qc_of_Z 0] |}.

(** What one tick is given: the clock, the two canvases if mounted, and
    for each source the values [getFrequencies('voice').values] when the
    recorder is recording (the player has an analyser), with the identity
    of the buffer made otherwise. *)
Record tick := {
  tick_clock : nat → number;
  clientCanvas : option mounted_canvas;
  serverCanvas : option mounted_canvas;
  userFrequency : option Float32Array;
  aiFrequency : option Float32Array;
  user_silence : nat;
  ai_silence : nat
}.

(** How often a branch of the tick reads the clock. *)
Definition clock_reads (canvas : option mounted_canvas) : nat :=
  if canvas is Some _ then S numberOfPoints else 0%nat.

Section Render.
Variables (Math_sin Math_cos : number → number) (Math_PI : number).

(** One branch of [render] (lines 142 to 147, and 149 to 154). *)
Definition render_source (Date_now : nat → number)
    (canvas : option mounted_canvas) (frequencies : option Float32Array)
    (silence_id : nat) (speaking : speakingState) : M unit :=
  match canvas with
  | None => mret tt
  | Some c =>
      _ ← ctx_call (context2d c)
            (clearRect (of_Z 0) (of_Z 0) (of_nat (width (element c)))
               (of_nat (height (element c))));
      let data :=
        match frequencies with
        | Some values => values
        | None => silence silence_id
        end in
      drawSpeechVisual Math_sin Math_cos Math_PI Date_now (element c)
        (context2d c) data speaking
  end.

(** [render]: the client canvas with the user's source, then the server
    canvas with the AI's; a tick that returns has asked for the next one
    ([requestAnimationFrame(render)] is its last statement). *)
Definition render (t : tick) : M unit :=
  _ ← render_source (tick_clock t) (clientCanvas t) (userFrequency t)
        (user_silence t) user;
  render_source (λ i, tick_clock t (clock_reads (clientCanvas t) + i)%nat)
    (serverCanvas t) (aiFrequency t) (ai_silence t) ai.

(** The store after the ticks [ts], from [σ]. *)
Definition run_ticks (ts : list tick) (σ : State) : State :=
  foldl (λ σ t, (render t σ).2) σ ts.
End Render.

(** The number of canvases mounted at a tick. *)
Definition mounted (t : tick) : nat :=
  ((if clientCanvas t is Some _ then 1 else 0)
   + (if serverCanvas t is Some _ then 1 else 0))%nat.

(** The buffer a branch of the tick draws. *)
Definition source_data (frequencies : option Float32Array) (silence_id : nat)
    : Float32Array :=
  match frequencies with
  | Some values => values
  | None => silence silence_id
  end.

(** ** Binary64: the numeric body of normalizeArray on doubles *)

Module Binary64.

(** A value is [undefined] or a double. *)
Inductive value :=
  | Undefined
  | Num (x : float).

(** [ToNumber]: [undefined] converts to NaN. *)
Definition ToNumber (v : value) : float :=
  match v with
  | Undefined => nan
  | Num x => x
  end.

(** The double nearest to an integer (the integer itself below 2^53). *)
Definition of_Z (z : Z) : float :=
  SF2Prim (binary_normalize prec emax z 0 false).
Definition of_nat (n : nat) : float := of_Z (Z.of_nat n).

(** [Math.abs] clears the sign. *)
Definition Math_abs (x : float) : float := abs x.

(** [Math.max]: NaN if an argument is NaN; [+0] counts as greater than [-0]. *)
Definition Math_max (x y : float) : float :=
  if is_nan x || is_nan y then nan
  else if (x <? y)%float then y
  else if (y <? x)%float then x
  else match classify x with NZero => y | _ => x end.

(** [Math.floor] and [Math.ceil], read off the mantissa [mx] and exponent
    [e] of [x = ± mx * 2^e]: with [0 ≤ e] the number is an integer; otherwise
    its integer part is [mx / 2^(-e)] and it is an integer when the
    remainder is [0]. *)
Definition Math_floor (x : float) : float :=
  match Prim2SF x with
  | S754_finite s mx e =>
      if decide (0 ≤ e) then x
      else
        let q := Z.pos mx / 2 ^ (- e) in
        if decide (Z.pos mx mod 2 ^ (- e) = 0) then x
        else if s then of_Z (- (q + 1))
        else of_Z q
  | _ => x
  end.

Definition Math_ceil (x : float) : float :=
  match Prim2SF x with
  | S754_finite s mx e =>
      if decide (0 ≤ e) then x
      else
        let q := Z.pos mx / 2 ^ (- e) in
        if decide (Z.pos mx mod 2 ^ (- e) = 0) then x
        else if s then (if decide (q = 0) then neg_zero else of_Z (- q))
        else of_Z (q + 1)
  | _ => x
  end.

(** [Math.fround]: the nearest float32, which is what a [Float32Array]
    stores. *)
Definition fround (x : float) : float :=
  match Prim2SF x with
  | S754_finite s mx e => SF2Prim (binary_round 24 128 s mx e)
  | _ => x
  end.

(** The integer a double is, if it is one. *)
Definition integer_of (x : float) : option Z :=
  match Prim2SF x with
  | S754_zero _ => Some 0
  | S754_finite s mx e =>
      let sign (k : Z) := if s then - k else k in
      if decide (0 ≤ e) then Some (sign (Z.pos mx * 2 ^ e))
      else if decide (Z.pos mx mod 2 ^ (- e) = 0)
           then Some (sign (Z.pos mx / 2 ^ (- e)))
           else None
  | _ => None
  end.

(** An element index: a number names an element of an [Array] when it is
    an integer from [0] to [2^32 - 2]; any other number is a property name
    that is no element. *)
Definition array_index (x : float) : option nat :=
  match integer_of x with
  | Some k => if decide (0 ≤ k ≤ 4294967294) then Some (Z.to_nat k) else None
  | None => None
  end.

(** A [Float32Array] is the list of its samples.  [data[i]] for a loop
    counter [i], an integer below [2^53] that the double holds exactly. *)
Definition typed_at (data : list float) (i : nat) : value :=
  from_option Num Undefined (data !! i).

(** [data[x]] for a computed number [x]. *)
Definition typed_get (data : list float) (x : float) : value :=
  match array_index x with
  | Some i => typed_at data i
  | None => Undefined
  end.

(** [a[i]] and [a[i] = v] for a loop counter [i]: a hole reads
    [undefined]; a write past the end grows the array, the gap being
    holes. *)
Definition array_at (a : list value) (i : nat) : value :=
  default Undefined (a !! i).

Definition array_put (a : list value) (i : nat) (v : value) : list value :=
  if decide (i < length a)%nat then <[i:=v]> a
  else a ++ replicate (i - length a) Undefined ++ [v].

(** [a[x]] and [a[x] = v] for a computed number [x].  A number that names
    no element is a property name; the arrays here keep no named
    properties (such a read gives [undefined], such a write leaves the
    elements as they are), and what is proved of the values of the
    downsampling branch is proved of the runs in which every index computed
    is an element ([positions_in_range] below). *)
Definition array_get (a : list value) (x : float) : value :=
  match array_index x with
  | Some i => array_at a i
  | None => Undefined
  end.

Definition array_set (a : list value) (x : float) (v : value) : list value :=
  match array_index x with
  | Some i => array_put a i v
  | None => a
  end.

Definition fill (a : list value) (v : value) : list value :=
  replicate (length a) v.

(** [new Array(m)]: [m] holes, or a [RangeError] unless
    [0 ≤ m ≤ 2^32 - 1]. *)
Definition new_Array (m : Z) : completion (list value) :=
  if decide (0 ≤ m ≤ 4294967295)
  then Normal (replicate (Z.to_nat m) Undefined)
  else Throw RangeError.

(** The body of the first loop of the downsampling branch (lines 32 to
    39). *)
Definition downsample_step (data : list float) (m : Z) (downsamplePeaks : bool)
    (rc : list value * list value) (i : nat) : list value * list value :=
  let n := of_nat (length data) in
  let index := Math_floor (of_nat i * (of_Z m / n))%float in
  let result :=
    if downsamplePeaks then
      array_set rc.1 index
        (Num (Math_max (ToNumber (array_get rc.1 index))
                       (Math_abs (ToNumber (typed_at data i)))))
    else
      array_set rc.1 index
        (Num (ToNumber (array_get rc.1 index)
              + Math_abs (ToNumber (typed_at data i)))%float) in
  let count :=
    array_set rc.2 index
      (Num (ToNumber (array_get rc.2 index) + of_Z 1)%float) in
  (result, count).

(** The body of the second loop (line 43). *)
Definition average_step (count : list value) (result : list value) (i : nat)
    : list value :=
  array_put result i
    (Num (ToNumber (array_at result i) / ToNumber (array_at count i))%float).

(** The body of the loop of the upsampling branch (lines 48 to 56). *)
Definition upsample_step (data : list float) (m : Z) (result : list value)
    (i : nat) : list value :=
  let n := of_nat (length data) in
  let index := ((of_nat i * (n - of_Z 1)) / (of_Z m - of_Z 1))%float in
  let low := Math_floor index in
  let high := Math_ceil index in
  let t := (index - low)%float in
  if (n <=? high)%float then
    array_put result i (typed_get data (n - of_Z 1)%float)
  else
    array_put result i
      (Num (ToNumber (typed_get data low) * (of_Z 1 - t)
            + ToNumber (typed_get data high) * t)%float).

(** The downsampling branch (lines 29 to 45). *)
Definition downsample (data : list float) (m : Z) (downsamplePeaks : bool)
    (result count0 : list value) : list value :=
  let result := fill result (Num (of_Z 0)) in
  let count := fill count0 (Num (of_Z 0)) in
  let rc := foldl (downsample_step data m downsamplePeaks)
              (result, count) (seq 0 (length data)) in
  if negb downsamplePeaks then
    foldl (average_step rc.2) rc.1 (seq 0 (length rc.1))
  else rc.1.

(** The upsampling branch (lines 47 to 57). *)
Definition upsample (data : list float) (m : Z) (result : list value)
    : list value :=
  foldl (upsample_step data m) result (seq 0 (Z.to_nat m)).

(** Lines 25 to 58 of [normalizeArray]: the array a call that is not
    answered from the cache returns, or the error it raises. *)
Definition normalizeArray (data : list float) (m : Z) (downsamplePeaks : bool)
    : completion (list value) :=
  match new_Array m with
  | Throw e => Throw e
  | Normal result =>
      if decide (m ≤ Z.of_nat (length data)) then
        match new_Array m with
        | Throw e => Throw e
        | Normal count0 =>
            Normal (downsample data m downsamplePeaks result count0)
        end
      else Normal (upsample data m result)
  end.

(** *** Notions the properties are stated with *)

(** The element of [result] that sample [i] is added to: the index the
    first loop computes, when it names an element. *)
Definition position (n : nat) (m : Z) (i : nat) : option nat :=
  array_index (Math_floor (of_nat i * (of_Z m / of_nat n))%float).

(** Every index the first loop computes names an element below [m]. *)
Definition positions_in_range (n : nat) (m : Z) : bool :=
  forallb (λ i, match position n m i with
                | Some j => bool_decide (j < Z.to_nat m)%nat
                | None => false
                end) (seq 0 n).

(** The samples below [k] that are added to element [j], in increasing
    order. *)
Definition members (n : nat) (m : Z) (k j : nat) : list nat :=
  filter (λ i, position n m i = Some j) (seq 0 k).

(** The absolute value of sample [i]. *)
Definition sample_abs (data : list float) (i : nat) : float :=
  abs (default nan (data !! i)).

(** The sum the first loop builds, one rounded addition per sample. *)
Definition summed (l : list float) : float := foldl PrimFloat.add 0%float l.

(** The greatest value so far, by [Math.max]. *)
Definition greatest (l : list float) : float := foldl Math_max 0%float l.

(** [count[j]] after [k] increments. *)
Definition counted (k : nat) : float :=
  Nat.iter k (λ c, c + 1)%float 0%float.

(** What the first loop accumulates over the absolute values [l]. *)
Definition accumulate (downsamplePeaks : bool) (l : list float) : float :=
  if downsamplePeaks then greatest l else summed l.

(** [result[j]] and [count[j]] after the iterations [0 .. k-1] of the first
    loop. *)
Definition result_at (data : list float) (m : Z) (downsamplePeaks : bool)
    (k j : nat) : value :=
  Num (accumulate downsamplePeaks
         (sample_abs data <$> members (length data) m k j)).

Definition count_at (data : list float) (m : Z) (k j : nat) : value :=
  Num (counted (length (members (length data) m k j))).

(** [v] is at least [0] and at least every element of [l], and is [0] or
    an element of [l]. *)
Definition is_peak (l : list float) (v : float) : Prop :=
  (0 <=? v)%float = true ∧
  (∀ x, x ∈ l → (x <=? v)%float = true) ∧
  (v = 0%float ∨ v ∈ l).

(** The value the upsampling loop assigns to [result[i]]. *)
Definition upsample_value (data : list float) (m : Z) (i : nat) : value :=
  let n := of_nat (length data) in
  let index := ((of_nat i * (n - of_Z 1)) / (of_Z m - of_Z 1))%float in
  let low := Math_floor index in
  let high := Math_ceil index in
  let t := (index - low)%float in
  if (n <=? high)%float then typed_get data (n - of_Z 1)%float
  else Num (ToNumber (typed_get data low) * (of_Z 1 - t)
            + ToNumber (typed_get data high) * t)%float.

(** [f] is a zero, a positive number or the positive infinity. *)
Definition sf_nonneg (f : spec_float) : Prop :=
  match f with
  | S754_zero _ | S754_finite false _ _ | S754_infinity false => True
  | _ => False
  end.

(** [f ≤ g] on such values: by exponent, then by mantissa. *)
Definition sf_le (f g : spec_float) : Prop :=
  match f, g with
  | S754_zero _, _ => True
  | S754_finite _ m1 e1, S754_finite _ m2 e2 =>
      e1 < e2 ∨ (e1 = e2 ∧ (m1 ≤ m2)%positive)
  | S754_finite _ _ _, S754_infinity _ => True
  | S754_infinity _, S754_infinity _ => True
  | _, _ => False
  end.

(** [0 ≤ x]: [x] is not NaN and not negative. *)
Definition nonneg (x : float) : Prop := (0 <=? x)%float = true.

(** The buffers of the worked scenarios, as a [Float32Array] holds them. *)
Definition scenario_peak : list float :=
  fround <$> [1 / 10; -9 / 10; 3 / 10; 2 / 10]%float.

Definition scenario_ramp : list float := [0; 1]%float.

(** 44 samples, all [0] but the one at index 22. *)
Definition scenario_impulse : list float :=
  replicate 22 0%float ++ [1%float] ++ replicate 21 0%float.

(** 974688457 samples, all [0] but the last. *)
Definition scenario_long : list float :=
  replicate (Z.to_nat 974688456) 0%float ++ [1%float].

End Binary64.

(** * Properties *)

(** ** Arithmetic of numbers *)

Lemma Qc_of_Z_ne_0 (z : Z) : z ≠ 0 → Qc_of_Z z ≠ 0%Qc.
Proof. rewrite <- Z2Qc_inj_0. intros Hz Heq. by apply Z2Qc_inj in Heq. Qed.

Lemma of_nat_mul_of_Z (i : nat) (z : Z) :
  (of_nat i * of_Z z)%num = of_Z (Z.of_nat i * z).
Proof. unfold of_nat, of_Z. simpl. by rewrite Z2Qc_inj_mul. Qed.

Lemma of_Z_sub (a b : Z) : (of_Z a - of_Z b)%num = of_Z (a - b).
Proof. unfold of_Z, num_sub. simpl. by rewrite Z2Qc_inj_sub. Qed.

Lemma of_Z_div (a b : Z) :
  b ≠ 0 → (of_Z a / of_Z b)%num = Fin (Qc_of_Z a / Qc_of_Z b).
Proof.
  intros Hb. unfold of_Z. simpl.
  destruct (decide _) as [H0|]; [|done]. by apply Qc_of_Z_ne_0 in H0.
Qed.

Lemma of_Z_div_Fin (a : Qc) (b : Z) :
  b ≠ 0 → (Fin a / of_Z b)%num = Fin (a / Qc_of_Z b).
Proof.
  intros Hb. unfold of_Z. cbn [num_div].
  destruct (decide _) as [H0|]; [|done]. by apply Qc_of_Z_ne_0 in H0.
Qed.

Lemma Qfloor_Qc (x : Q) : Qfloor (Q2Qc x) = Qfloor x.
Proof. apply Qfloor_comp. simpl. apply Qred_correct. Qed.

Lemma Qceiling_Qc (x : Q) : Qceiling (Q2Qc x) = Qceiling x.
Proof. apply Qceiling_comp. simpl. apply Qred_correct. Qed.

Lemma Qc_div_this (a b : Z) :
  (this (Qc_of_Z a / Qc_of_Z b)%Qc == inject_Z a / inject_Z b)%Q.
Proof.
  unfold Qcdiv, Qcmult, Qcinv. simpl.
  rewrite !Qred_correct. reflexivity.
Qed.

Lemma Qfloor_Qc_div (a b : Z) :
  Qfloor (Qc_of_Z a / Qc_of_Z b)%Qc = a / b.
Proof. rewrite (Qfloor_comp _ _ (Qc_div_this a b)). symmetry. apply Zdiv_Qdiv. Qed.

Lemma Qc_mul_div (a b c : Qc) : (a * (b / c) = a * b / c)%Qc.
Proof. unfold Qcdiv. ring. Qed.

(** The bucket index computed by the loop is the integer quotient. *)
Lemma bucket_index (n i : nat) (m : Z) :
  (0 < n)%nat →
  Math_floor (of_nat i * (of_Z m / of_nat n))%num
  = of_Z (Z.of_nat i * m / Z.of_nat n).
Proof.
  intros Hn. unfold of_nat at 2. rewrite of_Z_div by lia.
  unfold of_nat, of_Z. cbn [num_mul Math_floor]. unfold of_Z. do 2 f_equal.
  rewrite Qc_mul_div, <- Z2Qc_inj_mul. apply Qfloor_Qc_div.
Qed.

Lemma array_index_of_Z (z : Z) : 0 ≤ z → array_index (of_Z z) = Some (Z.to_nat z).
Proof. intros Hz. unfold array_index, of_Z. simpl. by rewrite decide_True. Qed.

Lemma array_index_of_nat (i : nat) : array_index (of_nat i) = Some i.
Proof. unfold of_nat. rewrite array_index_of_Z by lia. by rewrite Nat2Z.id. Qed.

Lemma Qcabs_nonneg (x : Qc) : (0 ≤ Qcabs x)%Qc.
Proof.
  unfold Qcle. change (0 <= Qred (Qabs x))%Q.
  rewrite Qred_correct. apply Qabs_nonneg.
Qed.

Lemma Qcmax_0_l (x : Qc) : (0 ≤ x)%Qc → Qcmax 0 x = x.
Proof. intros Hx. unfold Qcmax. by rewrite decide_True. Qed.

Lemma Qcmax_ge_l (a b : Qc) : (a ≤ Qcmax a b)%Qc.
Proof. unfold Qcmax. destruct (decide _); [done|]. apply Qcle_refl. Qed.

Lemma Qcmax_ge_r (a b : Qc) : (b ≤ Qcmax a b)%Qc.
Proof.
  unfold Qcmax. destruct (decide _) as [|Hn]; [apply Qcle_refl|].
  apply Qclt_le_weak. by apply Qclt_nge.
Qed.

Lemma Qcmax_cases (a b : Qc) : Qcmax a b = a ∨ Qcmax a b = b.
Proof. unfold Qcmax. destruct (decide _); auto. Qed.

(** ** Arrays given by a function of the index *)

Lemma tab_lookup {A} (f : nat → A) (m j : nat) :
  (j < m)%nat → (f <$> seq 0 m) !! j = Some (f j).
Proof. intros Hj. by rewrite list_lookup_fmap, lookup_seq_lt. Qed.

Lemma tab_insert {A} (f : nat → A) (m b : nat) (v : A) :
  <[b := v]> (f <$> seq 0 m)
  = (λ j, if decide (j = b) then v else f j) <$> seq 0 m.
Proof.
  apply list_eq. intros j.
  destruct (decide (j < m)%nat) as [Hj|Hj].
  - rewrite tab_lookup by done. destruct (decide (j = b)) as [->|Hne].
    + rewrite list_lookup_insert_eq; [done|]. by rewrite length_fmap, length_seq.
    + rewrite list_lookup_insert_ne by done. by rewrite tab_lookup.
  - rewrite !lookup_ge_None_2; [done| |].
    + rewrite length_fmap, length_seq. lia.
    + rewrite length_insert, length_fmap, length_seq. lia.
Qed.

Lemma tab_ext {A} (f g : nat → A) (m : nat) :
  (∀ j, (j < m)%nat → f j = g j) → f <$> seq 0 m = g <$> seq 0 m.
Proof.
  intros Hfg. apply list_fmap_ext. intros i x Hx.
  apply lookup_seq in Hx as [-> ?]. by apply Hfg.
Qed.

Lemma tab_replicate {A} (v : A) (m : nat) :
  replicate m v = (λ _, v) <$> seq 0 m.
Proof.
  apply list_eq. intros j. destruct (decide (j < m)%nat).
  - rewrite tab_lookup by done. by apply lookup_replicate_2.
  - rewrite !lookup_ge_None_2; [done| |].
    + rewrite length_fmap, length_seq. lia.
    + rewrite length_replicate. lia.
Qed.

Lemma array_get_tab (f : nat → value) (m j : nat) :
  (j < m)%nat → array_get (f <$> seq 0 m) (of_nat j) = f j.
Proof.
  intros Hj. unfold array_get. rewrite array_index_of_nat.
  by rewrite tab_lookup.
Qed.

Lemma array_set_tab (f : nat → value) (m j : nat) (v : value) :
  (j < m)%nat →
  array_set (f <$> seq 0 m) (of_nat j) v
  = (λ i, if decide (i = j) then v else f i) <$> seq 0 m.
Proof.
  intros Hj. unfold array_set. rewrite array_index_of_nat.
  rewrite decide_True by (by rewrite length_fmap, length_seq).
  apply tab_insert.
Qed.

Lemma typed_get_lookup (data : list Qc) (i : nat) (x : Qc) :
  data !! i = Some x → typed_get data (of_nat i) = Num (Fin x).
Proof. intros Hx. unfold typed_get. by rewrite array_index_of_nat, Hx. Qed.

(** ** Buckets *)

Lemma bucket_lt (n i : nat) (m : Z) :
  0 < m → (i < n)%nat → Z.of_nat (bucket n m i) < m.
Proof.
  intros Hm Hi. unfold bucket.
  assert (0 ≤ Z.of_nat i * m / Z.of_nat n) by (apply Z.div_pos; lia).
  rewrite Z2Nat.id by done.
  apply Z.div_lt_upper_bound; [lia|]. nia.
Qed.

Lemma bucket_indices_S (n : nat) (m : Z) (k j : nat) :
  bucket_indices n m (S k) j
  = bucket_indices n m k j ++ (if decide (bucket n m k = j) then [k] else []).
Proof.
  unfold bucket_indices. rewrite seq_S, filter_app. simpl. f_equal.
Qed.

Lemma bucket_indices_lt (n : nat) (m : Z) (k j i : nat) :
  i ∈ bucket_indices n m k j ↔ (i < k)%nat ∧ bucket n m i = j.
Proof.
  unfold bucket_indices. rewrite list_elem_of_filter, elem_of_seq. intuition lia.
Qed.

(** With [1 ≤ m ≤ n] every bucket receives a sample. *)
Lemma bucket_inhabited (n : nat) (m : Z) (j : nat) :
  1 ≤ m ≤ Z.of_nat n → Z.of_nat j < m →
  ∃ i, (i < n)%nat ∧ bucket n m i = j.
Proof.
  intros Hm Hj.
  set (i := (Z.of_nat j * Z.of_nat n + m - 1) / m).
  assert (Hlo : Z.of_nat j * Z.of_nat n ≤ i * m).
  { pose proof (Z.mul_succ_div_gt (Z.of_nat j * Z.of_nat n + m - 1) m) as H.
    fold i in H. lia. }
  assert (Hhi : i * m ≤ Z.of_nat j * Z.of_nat n + m - 1).
  { pose proof (Z.mul_div_le (Z.of_nat j * Z.of_nat n + m - 1) m) as H.
    fold i in H. lia. }
  assert (Hi0 : 0 ≤ i) by (apply Z.div_pos; lia).
  exists (Z.to_nat i). split.
  - assert (i < Z.of_nat n) by nia. lia.
  - unfold bucket. rewrite Z2Nat.id by done.
    assert (i * m / Z.of_nat n = Z.of_nat j) as ->; [|lia].
    symmetry. apply (Z.div_unique _ _ _ (i * m - Z.of_nat j * Z.of_nat n)); lia.
Qed.

Lemma bucket_same (n i : nat) : (i < n)%nat → bucket n (Z.of_nat n) i = i.
Proof.
  intros Hi. unfold bucket. rewrite Z.div_mul by lia. lia.
Qed.

(** ** The downsampling loops *)

Lemma accumulate_snoc (p : bool) (l : list Qc) (x : Qc) :
  accumulate p (l ++ [x])
  = if p then Qcmax (accumulate p l) x else (accumulate p l + x)%Qc.
Proof. unfold accumulate. destruct p; by rewrite foldl_app. Qed.

Lemma result_at_S (data : list Qc) (m : Z) (p : bool) (k j : nat) (x : Qc) :
  data !! k = Some x →
  result_at data m p (S k) j
  = if decide (j = bucket (length data) m k)
    then Num (if p
              then Math_max
                     (ToNumber (result_at data m p k (bucket (length data) m k)))
                     (Fin (Qcabs x))
              else (ToNumber (result_at data m p k (bucket (length data) m k))
                    + Fin (Qcabs x))%num)
    else result_at data m p k j.
Proof.
  intros Hx. unfold result_at. rewrite bucket_indices_S.
  destruct (decide (j = _)) as [->|Hne].
  - rewrite decide_True by done. rewrite fmap_app.
    change (sample_abs data <$> [k]) with [sample_abs data k].
    rewrite accumulate_snoc.
    assert (sample_abs data k = Qcabs x) as -> by (unfold sample_abs; by rewrite Hx).
    by destruct p.
  - rewrite decide_False by done. by rewrite app_nil_r.
Qed.

Lemma count_at_S (data : list Qc) (m : Z) (k j : nat) :
  count_at data m (S k) j
  = if decide (j = bucket (length data) m k)
    then Num (ToNumber (count_at data m k (bucket (length data) m k))
              + of_Z 1)%num
    else count_at data m k j.
Proof.
  unfold count_at. rewrite bucket_indices_S.
  destruct (decide (j = _)) as [->|Hne].
  - rewrite decide_True by done. rewrite length_app. cbn [length ToNumber].
    unfold of_nat, of_Z. cbn [num_add]. rewrite <- Z2Qc_inj_add.
    do 3 f_equal. lia.
  - rewrite decide_False by done. by rewrite app_nil_r.
Qed.

Lemma downsample_step_tab (data : list Qc) (m : Z) (p : bool) (k : nat) :
  1 ≤ m → (k < length data)%nat →
  downsample_step data m p
    (result_at data m p k <$> seq 0 (Z.to_nat m),
     count_at data m k <$> seq 0 (Z.to_nat m)) k
  = (result_at data m p (S k) <$> seq 0 (Z.to_nat m),
     count_at data m (S k) <$> seq 0 (Z.to_nat m)).
Proof.
  intros Hm Hk. unfold downsample_step. cbn [fst snd].
  rewrite bucket_index by lia.
  pose proof (bucket_lt (length data) k m ltac:(lia) Hk) as Hb.
  assert (of_Z (Z.of_nat k * m / Z.of_nat (length data))
          = of_nat (bucket (length data) m k)) as ->.
  { unfold of_nat, bucket. rewrite Z2Nat.id; [done|]. apply Z.div_pos; lia. }
  destruct (lookup_lt_is_Some_2 data k Hk) as [x Hx].
  rewrite (typed_get_lookup _ _ _ Hx), !array_get_tab by lia.
  f_equal.
  - rewrite (tab_ext (result_at data m p (S k)) _ _
               (λ j _, result_at_S data m p k j x Hx)).
    destruct p; rewrite array_set_tab by lia; done.
  - rewrite (tab_ext (count_at data m (S k)) _ _
               (λ j _, count_at_S data m k j)).
    by rewrite array_set_tab by lia.
Qed.

Lemma downsample_loop (data : list Qc) (m : Z) (p : bool) (k : nat) :
  1 ≤ m → (k ≤ length data)%nat →
  foldl (downsample_step data m p)
    (fill (replicate (Z.to_nat m) Undefined) (Num (of_Z 0)),
     fill (replicate (Z.to_nat m) Undefined) (Num (of_Z 0)))
    (seq 0 k)
  = (result_at data m p k <$> seq 0 (Z.to_nat m),
     count_at data m k <$> seq 0 (Z.to_nat m)).
Proof.
  intros Hm. induction k as [|k IH]; intros Hk.
  - cbn [seq foldl]. unfold fill. rewrite length_replicate, tab_replicate.
    f_equal; apply tab_ext; intros j _; try done.
    unfold result_at, accumulate, of_Z. rewrite Z2Qc_inj_0. by destruct p.
  - rewrite seq_S, foldl_app, IH by lia. cbn [foldl Nat.add].
    apply downsample_step_tab; lia.
Qed.

Lemma average_loop (f g : nat → value) (len k : nat) :
  (k ≤ len)%nat →
  foldl (average_step (g <$> seq 0 len)) (f <$> seq 0 len) (seq 0 k)
  = (λ j, if decide (j < k)%nat
          then Num (ToNumber (f j) / ToNumber (g j))%num
          else f j) <$> seq 0 len.
Proof.
  induction k as [|k IH]; intros Hk.
  - cbn [seq foldl]. apply tab_ext. intros j _. by rewrite decide_False by lia.
  - rewrite seq_S, foldl_app, IH by lia. cbn [foldl Nat.add].
    unfold average_step. rewrite !array_get_tab, array_set_tab by lia.
    apply tab_ext. intros j _.
    rewrite (decide_False (P := (k < k)%nat)) by lia.
    destruct (decide (j = k)) as [->|Hne].
    + by rewrite decide_True by lia.
    + destruct (decide (j < k)%nat).
      * by rewrite decide_True by lia.
      * by rewrite decide_False by lia.
Qed.

(** The array the downsampling branch leaves in [result]. *)
Lemma downsample_tab (data : list Qc) (m : Z) (p : bool) :
  1 ≤ m →
  downsample data m p (replicate (Z.to_nat m) Undefined)
    (replicate (Z.to_nat m) Undefined)
  = (λ j, if p then result_at data m p (length data) j
          else Num (ToNumber (result_at data m p (length data) j)
                    / ToNumber (count_at data m (length data) j))%num)
    <$> seq 0 (Z.to_nat m).
Proof.
  intros Hm. unfold downsample. rewrite downsample_loop by lia.
  cbn [fst snd]. destruct p; cbn [negb]; [done|].
  rewrite length_fmap, length_seq, average_loop by lia.
  apply tab_ext. intros j Hj. by rewrite decide_True.
Qed.

Lemma bucket_indices_nonempty (n : nat) (m : Z) (j : nat) :
  1 ≤ m ≤ Z.of_nat n → Z.of_nat j < m → bucket_indices n m n j ≠ [].
Proof.
  intros Hm Hj Hnil.
  destruct (bucket_inhabited n m j Hm Hj) as (i & Hi & Hb).
  assert (i ∈ bucket_indices n m n j) as Hin by (by apply bucket_indices_lt).
  rewrite Hnil in Hin. by apply elem_of_nil in Hin.
Qed.

Lemma bucket_abs_nonempty (data : list Qc) (m : Z) (j : nat) :
  1 ≤ m ≤ Z.of_nat (length data) → Z.of_nat j < m → bucket_abs data m j ≠ [].
Proof.
  intros Hm Hj Hnil. apply fmap_nil_inv in Hnil.
  by apply (bucket_indices_nonempty _ _ _ Hm Hj).
Qed.

Lemma bucket_abs_nonneg (data : list Qc) (m : Z) (j : nat) (x : Qc) :
  x ∈ bucket_abs data m j → (0 ≤ x)%Qc.
Proof.
  intros Hx. apply list_elem_of_fmap in Hx as (i & -> & _). apply Qcabs_nonneg.
Qed.

(** The left fold of [Qcmax] from [0] is the peak of a list of non-negative
    values. *)
Lemma foldl_Qcmax_ge (l : list Qc) (a : Qc) :
  (a ≤ foldl Qcmax a l)%Qc ∧ ∀ x, x ∈ l → (x ≤ foldl Qcmax a l)%Qc.
Proof.
  revert a. induction l as [|y l IH]; intros a; cbn [foldl].
  - split; [apply Qcle_refl|]. intros x Hx. by apply elem_of_nil in Hx.
  - destruct (IH (Qcmax a y)) as [Ha Hl]. split.
    + eapply Qcle_trans; [apply Qcmax_ge_l|done].
    + intros x [->|Hx]%elem_of_cons; [|by apply Hl].
      eapply Qcle_trans; [apply Qcmax_ge_r|done].
Qed.

Lemma foldl_Qcmax_in (l : list Qc) (a : Qc) :
  foldl Qcmax a l = a ∨ foldl Qcmax a l ∈ l.
Proof.
  revert a. induction l as [|y l IH]; intros a; cbn [foldl]; [by left|].
  destruct (IH (Qcmax a y)) as [Heq|Hin].
  - rewrite Heq. destruct (Qcmax_cases a y) as [->| ->]; [by left|].
    right. apply elem_of_cons. by left.
  - right. apply elem_of_cons. by right.
Qed.

Lemma accumulate_is_peak (l : list Qc) :
  (∀ x, x ∈ l → (0 ≤ x)%Qc) → is_peak l (accumulate true l).
Proof.
  intros Hpos. unfold accumulate. split.
  - apply foldl_Qcmax_ge.
  - destruct l as [|y l]; [done|].
    destruct (foldl_Qcmax_in (y :: l) 0%Qc) as [Heq|Hin]; [|done].
    cbn [foldl] in *. rewrite Qcmax_0_l in * by (apply Hpos; by left).
    destruct (foldl_Qcmax_in l y) as [Hy|Hl].
    + rewrite Hy. by left.
    + by right.
Qed.

(** ** The cache *)

Lemma cache_entry_touch (dm : gmap nat (gmap string (gmap string nat)))
    (id id' : nat) (mKey mKey' dKey' : string) :
  cache_entry (cache_touch id mKey dm) id' mKey' dKey'
  = cache_entry dm id' mKey' dKey'.
Proof.
  unfold cache_entry, cache_touch.
  destruct (decide (id = id')) as [<-|Hid];
    [|by rewrite lookup_insert_ne by done].
  rewrite lookup_insert_eq.
  destruct (decide (mKey = mKey')) as [<-|Hm].
  - rewrite lookup_insert_eq.
    destruct (dm !! id) as [cache|]; simpl.
    + destruct (cache !! mKey); simpl; [done|apply lookup_empty].
    + rewrite lookup_empty. simpl. apply lookup_empty.
  - rewrite lookup_insert_ne by done.
    destruct (dm !! id); simpl; [done|by rewrite lookup_empty].
Qed.

Lemma cache_entry_store (dm : gmap nat (gmap string (gmap string nat)))
    (id id' : nat) (mKey mKey' dKey dKey' : string) (l : nat) :
  cache_entry (cache_store id mKey dKey l dm) id' mKey' dKey'
  = if decide (id = id' ∧ mKey = mKey' ∧ dKey = dKey') then Some l
    else cache_entry dm id' mKey' dKey'.
Proof.
  unfold cache_entry, cache_store.
  destruct (decide (id = id')) as [<-|Hid];
    [|rewrite lookup_insert_ne by done; by rewrite decide_False by tauto].
  rewrite lookup_insert_eq.
  destruct (decide (mKey = mKey')) as [<-|Hm].
  - rewrite lookup_insert_eq.
    destruct (decide (dKey = dKey')) as [<-|Hd].
    + rewrite lookup_insert_eq. by rewrite decide_True.
    + rewrite lookup_insert_ne by done. rewrite decide_False by tauto.
      destruct (dm !! id) as [cache|]; simpl.
      * destruct (cache !! mKey); simpl; [done|apply lookup_empty].
      * rewrite lookup_empty. simpl. apply lookup_empty.
  - rewrite lookup_insert_ne by done. rewrite decide_False by tauto.
    destruct (dm !! id); simpl; [done|by rewrite lookup_empty].
Qed.

(** On a hit, lines 18 to 20 leave [dataMap] as it is. *)
Lemma cache_touch_hit (dm : gmap nat (gmap string (gmap string nat)))
    (id : nat) (mKey dKey : string) (l : nat) :
  cache_entry dm id mKey dKey = Some l → cache_touch id mKey dm = dm.
Proof.
  unfold cache_entry, cache_touch. intros Hhit.
  destruct (dm !! id) as [cache|] eqn:Hc; [|done]. simpl.
  destruct (cache !! mKey) as [by_mode|] eqn:Hm; [|done]. simpl.
  rewrite (insert_id cache) by done. by apply insert_id.
Qed.

Lemma State_eta (σ : State) :
  {| arrays := arrays σ; dataMap := dataMap σ; contexts := contexts σ |} = σ.
Proof. by destruct σ. Qed.

Lemma bool_toString_inj (a b : bool) : bool_toString a = bool_toString b → a = b.
Proof. by destruct a, b. Qed.

(** ** normalizeArray, case by case *)

Lemma resample_run (data : list Qc) (m : Z) (p : bool) (σ : State) :
  0 ≤ m →
  resample data m p (replicate (Z.to_nat m) Undefined) σ
  = (Normal (resample_val data m p), σ).
Proof.
  intros Hm. unfold resample, resample_val.
  destruct (decide (m ≤ _)); [|done].
  unfold mbind, M_bind, new_Array. by rewrite decide_False by lia.
Qed.

(** A call that is not answered from the cache, with [0 ≤ m]. *)
Lemma normalizeArray_miss (data : Float32Array) (m : Z) (p memoize : bool)
    (σ : State) :
  0 ≤ m → computes data m p memoize σ →
  normalizeArray data m p memoize σ
  = (Normal (length (arrays σ)),
     {| arrays := arrays σ ++ [resample_val (samples data) m p];
        dataMap :=
          if memoize
          then cache_store (buffer_id data) (pretty m) (bool_toString p)
                 (length (arrays σ))
                 (cache_touch (buffer_id data) (pretty m) (dataMap σ))
          else dataMap σ;
        contexts := contexts σ |}).
Proof.
  intros Hm Hmiss. unfold normalizeArray, computes, cached in *.
  destruct memoize.
  - unfold mbind, M_bind, set_dataMap, modify, gets, cached. cbn [dataMap].
    rewrite cache_entry_touch, (Hmiss eq_refl).
    unfold new_Array. rewrite decide_False by lia.
    unfold mret at 1, M_ret at 1. rewrite resample_run by done.
    by unfold alloc.
  - unfold mbind, M_bind, mret at 1 2, M_ret at 1 2.
    unfold new_Array. rewrite decide_False by lia.
    unfold mret at 1, M_ret at 1. rewrite resample_run by done.
    by unfold alloc.
Qed.

(** A call answered from the cache. *)
Lemma normalizeArray_hit (data : Float32Array) (m : Z) (p : bool)
    (σ : State) (l : nat) :
  cached σ (buffer_id data) (pretty m) (bool_toString p) = Some l →
  normalizeArray data m p true σ = (Normal l, σ).
Proof.
  intros Hhit. unfold normalizeArray, cached in *.
  unfold mbind, M_bind, set_dataMap, modify, gets, cached. cbn [dataMap].
  rewrite (cache_touch_hit _ _ _ _ _ Hhit), Hhit.
  unfold mret, M_ret. by rewrite State_eta.
Qed.

(** A negative length: the array constructor throws; with [memoize] the
    cache objects of lines 18 to 20 have been created by then. *)
Lemma normalizeArray_negative (data : Float32Array) (m : Z) (p memoize : bool)
    (σ : State) :
  m < 0 → computes data m p memoize σ →
  normalizeArray data m p memoize σ
  = (Throw RangeError,
     {| arrays := arrays σ;
        dataMap := if memoize
                   then cache_touch (buffer_id data) (pretty m) (dataMap σ)
                   else dataMap σ;
        contexts := contexts σ |}).
Proof.
  intros Hm Hmiss. unfold normalizeArray, computes, cached in *.
  destruct memoize.
  - unfold mbind, M_bind, set_dataMap, modify, gets, cached. cbn [dataMap].
    rewrite cache_entry_touch, (Hmiss eq_refl).
    unfold new_Array. by rewrite decide_True by lia.
  - unfold mbind, M_bind, mret at 1 2, M_ret at 1 2.
    unfold new_Array. rewrite decide_True by lia.
    unfold throw. by rewrite State_eta.
Qed.

Lemma normalizeArray_returns (data : Float32Array) (m : Z) (p memoize : bool)
    (σ : State) :
  0 ≤ m → computes data m p memoize σ →
  returns_array (normalizeArray data m p memoize) σ
    (resample_val (samples data) m p).
Proof.
  intros Hm Hmiss. eexists _, _. split; [by apply normalizeArray_miss|].
  cbn [arrays]. by rewrite lookup_app_r, Nat.sub_diag.
Qed.

(** ** Downsampling: the value of each bucket *)

Lemma resample_val_down (data : list Qc) (m : Z) (p : bool) (j : nat) :
  1 ≤ m ≤ Z.of_nat (length data) → (j < Z.to_nat m)%nat →
  length (resample_val data m p) = Z.to_nat m ∧
  resample_val data m p !! j
  = Some (Num (Fin (if p then accumulate true (bucket_abs data m j)
                    else mean (bucket_abs data m j)))).
Proof.
  intros Hm Hj. unfold resample_val. rewrite decide_True by lia.
  rewrite downsample_tab by lia. split.
  { by rewrite length_fmap, length_seq. }
  rewrite tab_lookup by done. destruct p; [done|].
  unfold result_at, count_at. cbn [ToNumber]. unfold of_nat.
  rewrite of_Z_div_Fin.
  - unfold mean, bucket_abs, accumulate, Qcsum. by rewrite length_fmap.
  - pose proof (bucket_indices_nonempty (length data) m j Hm ltac:(lia)) as Hne.
    destruct (bucket_indices _ _ _ _); [done|]. cbn [length]. lia.
Qed.

Lemma accumulate_nonneg (l : list Qc) : (0 ≤ accumulate true l)%Qc.
Proof. unfold accumulate. by destruct (foldl_Qcmax_ge l 0%Qc). Qed.

(** With [m = n] bucket [j] holds sample [j] alone. *)
Lemma bucket_indices_same (n k j : nat) :
  (k ≤ n)%nat →
  bucket_indices n (Z.of_nat n) k j = if decide (j < k)%nat then [j] else [].
Proof.
  induction k as [|k IH]; intros Hk; [done|].
  rewrite bucket_indices_S, IH, bucket_same by lia.
  destruct (decide (j < k)%nat).
  - rewrite decide_False, decide_True by lia. apply app_nil_r.
  - destruct (decide (k = j)) as [->|].
    + by rewrite decide_True by lia.
    + by rewrite decide_False by lia.
Qed.

Lemma bucket_abs_same (data : list Qc) (j : nat) (x : Qc) :
  data !! j = Some x →
  bucket_abs data (Z.of_nat (length data)) j = [Qcabs x].
Proof.
  intros Hx. unfold bucket_abs. rewrite bucket_indices_same by lia.
  rewrite decide_True by (by eapply lookup_lt_Some).
  cbn [fmap list_fmap]. unfold sample_abs. by rewrite Hx.
Qed.

Lemma mean_singleton (x : Qc) : mean [x] = x.
Proof.
  unfold mean, Qcsum. cbn [foldl length]. change (Z.of_nat 1) with 1.
  rewrite Z2Qc_inj_1, Qcplus_0_l. unfold Qcdiv.
  replace (/ 1)%Qc with 1%Qc by (by apply Qc_is_canon).
  apply Qcmult_1_r.
Qed.

Lemma resample_val_same (data : list Qc) (p : bool) :
  (1 ≤ length data)%nat →
  resample_val data (Z.of_nat (length data)) p
  = (λ x, Num (Fin (Qcabs x))) <$> data.
Proof.
  intros Hn. apply list_eq. intros j. rewrite list_lookup_fmap.
  destruct (data !! j) as [x|] eqn:Hx; cbn [fmap option_fmap option_map].
  - pose proof (lookup_lt_Some _ _ _ Hx) as Hj.
    destruct (resample_val_down data (Z.of_nat (length data)) p j) as [_ ->];
      [lia..|].
    rewrite (bucket_abs_same _ _ _ Hx), mean_singleton.
    unfold accumulate. cbn [foldl]. rewrite Qcmax_0_l by apply Qcabs_nonneg.
    by destruct p.
  - apply lookup_ge_None_2. apply lookup_ge_None_1 in Hx.
    unfold resample_val. rewrite decide_True, downsample_tab by lia.
    rewrite length_fmap, length_seq. lia.
Qed.



(** ** Upsampling *)

Lemma upsample_step_value (data : list Qc) (m : Z) (result : list value)
    (i : nat) :
  upsample_step data m result i
  = array_set result (of_nat i) (upsample_value data m i).
Proof. unfold upsample_step, upsample_value. by destruct (_ >=? _)%num. Qed.

Lemma upsample_loop (data : list Qc) (m : Z) (f : nat → value) (len k : nat) :
  (k ≤ len)%nat →
  foldl (upsample_step data m) (f <$> seq 0 len) (seq 0 k)
  = (λ j, if decide (j < k)%nat then upsample_value data m j else f j)
    <$> seq 0 len.
Proof.
  induction k as [|k IH]; intros Hk.
  - cbn [seq foldl]. apply tab_ext. intros j _. by rewrite decide_False by lia.
  - rewrite seq_S, foldl_app, IH by lia. cbn [foldl Nat.add].
    rewrite upsample_step_value, array_set_tab by lia.
    apply tab_ext. intros j _.
    destruct (decide (j = k)) as [->|Hne].
    + by rewrite decide_True by lia.
    + destruct (decide (j < k)%nat).
      * by rewrite decide_True by lia.
      * by rewrite decide_False by lia.
Qed.

Lemma resample_val_up (data : list Qc) (m : Z) (p : bool) :
  Z.of_nat (length data) < m →
  resample_val data m p = upsample_value data m <$> seq 0 (Z.to_nat m).
Proof.
  intros Hm. unfold resample_val, upsample. rewrite decide_False by lia.
  rewrite tab_replicate, upsample_loop by lia.
  apply tab_ext. intros j Hj. by rewrite decide_True.
Qed.

Lemma Qceiling_Qc_div (a b : Z) :
  Qceiling (Qc_of_Z a / Qc_of_Z b)%Qc = - ((- a) / b).
Proof.
  unfold Qceiling. f_equal.
  rewrite (Qfloor_comp _ (inject_Z (- a) / inject_Z b)); [symmetry; apply Zdiv_Qdiv|].
  rewrite (Qc_div_this a b), inject_Z_opp. unfold Qdiv. ring.
Qed.

(** The source position of output index [i]. *)
Lemma upsample_position (n i : nat) (m : Z) :
  m ≠ 1 →
  ((of_nat i * (of_nat n - of_Z 1)) / (of_Z m - of_Z 1))%num
  = Fin (Qc_of_Z (Z.of_nat i * (Z.of_nat n - 1)) / Qc_of_Z (m - 1)).
Proof.
  intros Hm. unfold of_nat at 2.
  rewrite !of_Z_sub, of_nat_mul_of_Z. apply of_Z_div. lia.
Qed.

Lemma num_ge_of_Z (a b : Z) : (of_Z a >=? of_Z b)%num = bool_decide (b ≤ a).
Proof.
  unfold of_Z. cbn [num_ge]. apply bool_decide_ext. symmetry. apply Z2Qc_inj_le.
Qed.

Lemma typed_get_of_Z (data : list Qc) (z : Z) (x : Qc) :
  0 ≤ z → data !! Z.to_nat z = Some x → typed_get data (of_Z z) = Num (Fin x).
Proof. intros Hz Hx. unfold typed_get. by rewrite array_index_of_Z, Hx. Qed.

(** For [1 ≤ n < m] the two neighbours of the source position are samples
    of the buffer, and the value assigned is the interpolation. *)
Lemma upsample_value_lerp (data : list Qc) (m : Z) (i : nat) :
  1 ≤ Z.of_nat (length data) < m → (i < Z.to_nat m)%nat →
  ∃ y, lerp data m i = Some y ∧ upsample_value data m i = Num (Fin y) ∧
       Qceiling (Qc_of_Z (Z.of_nat i * (Z.of_nat (length data) - 1))
                 / Qc_of_Z (m - 1))%Qc < Z.of_nat (length data).
Proof.
  intros Hm Hi. unfold lerp, upsample_value.
  rewrite upsample_position by lia. cbn [Math_floor Math_ceil].
  set (n := Z.of_nat (length data)) in *.
  set (a := Z.of_nat i * (n - 1)).
  set (pos := (Qc_of_Z a / Qc_of_Z (m - 1))%Qc).
  assert (Ha : 0 ≤ a ≤ (n - 1) * (m - 1)) by (unfold a; nia).
  assert (Hlow : 0 ≤ Qfloor pos ≤ n - 1).
  { unfold pos. rewrite Qfloor_Qc_div. split.
    - apply Z.div_pos; lia.
    - apply Z.div_le_upper_bound; lia. }
  assert (Hhigh : 0 ≤ Qceiling pos ≤ n - 1).
  { unfold pos. rewrite Qceiling_Qc_div.
    assert (- (n - 1) ≤ - a / (m - 1)) by (apply Z.div_le_lower_bound; lia).
    assert (- a / (m - 1) ≤ 0) by (apply Z.div_le_upper_bound; lia).
    lia. }
  unfold of_nat. fold n. rewrite num_ge_of_Z.
  rewrite bool_decide_eq_false_2, decide_False by lia.
  destruct (lookup_lt_is_Some_2 data (Z.to_nat (Qfloor pos))) as [x Hx]; [lia|].
  destruct (lookup_lt_is_Some_2 data (Z.to_nat (Qceiling pos))) as [y Hy]; [lia|].
  rewrite (typed_get_of_Z _ _ x), (typed_get_of_Z _ _ y) by (done || lia).
  rewrite Hx, Hy. cbn [mbind option_bind].
  eexists. split; [done|]. split; [|lia].
  unfold of_Z. cbn [ToNumber num_sub num_neg num_add num_mul].
  by rewrite Z2Qc_inj_1.
Qed.

Lemma lerp_first (data : list Qc) (m : Z) :
  1 ≤ Z.of_nat (length data) < m → lerp data m 0 = data !! 0%nat.
Proof.
  intros Hm. unfold lerp. cbn [Z.of_nat]. rewrite Z.mul_0_l.
  assert ((Qc_of_Z 0 / Qc_of_Z (m - 1))%Qc = 0%Qc) as ->.
  { rewrite Z2Qc_inj_0. unfold Qcdiv. apply Qcmult_0_l. }
  change (Qfloor 0%Qc) with 0. change (Qceiling 0%Qc) with 0.
  rewrite decide_False by lia. change (Z.to_nat 0) with 0%nat.
  destruct (data !! 0%nat) as [x|]; [|done]. cbn [mbind option_bind].
  f_equal. rewrite Z2Qc_inj_0. ring.
Qed.

Lemma lerp_last (data : list Qc) (m : Z) :
  1 ≤ Z.of_nat (length data) < m → lerp data m (Z.to_nat (m - 1)) = last data.
Proof.
  intros Hm. unfold lerp. rewrite Z2Nat.id by lia.
  set (n := Z.of_nat (length data)) in *.
  assert ((Qc_of_Z ((m - 1) * (n - 1)) / Qc_of_Z (m - 1))%Qc = Qc_of_Z (n - 1))
    as ->.
  { rewrite Z.mul_comm, Z2Qc_inj_mul. apply Qcdiv_mult_l, Qc_of_Z_ne_0. lia. }
  change (Qfloor (Qc_of_Z (n - 1))) with (Qfloor (inject_Z (n - 1))).
  change (Qceiling (Qc_of_Z (n - 1))) with (Qceiling (inject_Z (n - 1))).
  rewrite Qfloor_Z, Qceiling_Z, decide_False by lia.
  rewrite last_lookup.
  replace (Z.to_nat (n - 1)) with (pred (length data)) by lia.
  destruct (data !! pred (length data)) as [x|]; [|done].
  cbn [mbind option_bind]. f_equal. ring.
Qed.

(** ** Inputs outside the contract *)

Lemma typed_get_nil (x : number) : typed_get [] x = Undefined.
Proof. unfold typed_get. by destruct (array_index x). Qed.

Lemma upsample_value_nil (m : Z) (i : nat) :
  upsample_value [] m i = Undefined ∨ upsample_value [] m i = Num NaN.
Proof.
  unfold upsample_value. destruct (_ >=? _)%num.
  - left. apply typed_get_nil.
  - right. by rewrite !typed_get_nil.
Qed.

Lemma Math_max_NaN_l (y : number) : Math_max NaN y = NaN.
Proof. by destruct y. Qed.

(** With [m = 0] every sample falls on index [0] of the empty [result]:
    the first write grows the array by one element, NaN, which stays. *)
Lemma downsample_step_zero (data : list Qc) (p : bool) (rc : list value * list value)
    (i : nat) :
  (0 < length data)%nat →
  rc = ([], []) ∨ rc = ([Num NaN], [Num NaN]) →
  downsample_step data 0 p rc i = ([Num NaN], [Num NaN]).
Proof.
  intros Hn Hrc. unfold downsample_step.
  rewrite bucket_index by done. rewrite Z.mul_0_r, Z.div_0_l by lia.
  destruct Hrc as [-> | ->]; cbn [fst snd];
    destruct p; by rewrite ?Math_max_NaN_l.
Qed.

Lemma downsample_loop_zero (data : list Qc) (p : bool) (k : nat) :
  (0 < length data)%nat →
  foldl (downsample_step data 0 p) ([], []) (seq 0 (S k))
  = ([Num NaN], [Num NaN]).
Proof.
  intros Hn. induction k as [|k IH].
  - cbn [seq foldl]. apply downsample_step_zero; auto.
  - rewrite seq_S, foldl_app, IH. cbn [foldl].
    apply downsample_step_zero; auto.
Qed.

Lemma resample_val_zero (data : list Qc) (p : bool) :
  data ≠ [] → resample_val data 0 p = [Num NaN].
Proof.
  intros Hne. unfold resample_val. rewrite decide_True by lia.
  unfold downsample. change (fill (replicate (Z.to_nat 0) Undefined) _) with ([] : list value).
  destruct data as [|x data]; [done|]. cbn [length].
  rewrite downsample_loop_zero by (cbn [length]; lia).
  by destruct p.
Qed.

Lemma resample_val_nil (m : Z) (p : bool) (v : value) :
  1 ≤ m →
  length (resample_val [] m p) = Z.to_nat m ∧
  (v ∈ resample_val [] m p → v = Undefined ∨ v = Num NaN).
Proof.
  intros Hm. rewrite resample_val_up by (cbn [length]; lia). split.
  - by rewrite length_fmap, length_seq.
  - intros (i & -> & _)%list_elem_of_fmap. apply upsample_value_nil.
Qed.

(** * normalizeArray on doubles *)

(** ** Arrays *)

Lemma binary64_array_at_tab (f : nat → Binary64.value) (m j : nat) :
  (j < m)%nat → Binary64.array_at (f <$> seq 0 m) j = f j.
Proof. intros Hj. unfold Binary64.array_at. by rewrite tab_lookup. Qed.

Lemma binary64_array_put_tab (f : nat → Binary64.value) (m j : nat)
    (v : Binary64.value) :
  (j < m)%nat →
  Binary64.array_put (f <$> seq 0 m) j v
  = (λ i, if decide (i = j) then v else f i) <$> seq 0 m.
Proof.
  intros Hj. unfold Binary64.array_put.
  rewrite decide_True by (by rewrite length_fmap, length_seq).
  apply tab_insert.
Qed.

(** ** The downsampling loops *)

Lemma binary64_members_S (n : nat) (m : Z) (k j : nat) :
  Binary64.members n m (S k) j
  = Binary64.members n m k j
    ++ (if decide (Binary64.position n m k = Some j) then [k] else []).
Proof.
  unfold Binary64.members. rewrite seq_S, filter_app. simpl. f_equal.
Qed.

Lemma binary64_members_lt (n : nat) (m : Z) (k j i : nat) :
  i ∈ Binary64.members n m k j ↔ (i < k)%nat ∧ Binary64.position n m i = Some j.
Proof.
  unfold Binary64.members. rewrite list_elem_of_filter, elem_of_seq. intuition lia.
Qed.

Lemma binary64_position_lt (n : nat) (m : Z) (i : nat) :
  Binary64.positions_in_range n m = true → (i < n)%nat →
  ∃ j, Binary64.position n m i = Some j ∧ (j < Z.to_nat m)%nat.
Proof.
  intros Hall Hi. unfold Binary64.positions_in_range in Hall.
  rewrite forallb_forall in Hall.
  specialize (Hall i). rewrite <- list_elem_of_In, elem_of_seq in Hall.
  specialize (Hall ltac:(lia)).
  destruct (Binary64.position n m i) as [j|]; [|done].
  exists j. split; [done|]. by apply bool_decide_eq_true in Hall.
Qed.

Lemma binary64_sample_abs_eq (data : list float) (i : nat) :
  Binary64.Math_abs (Binary64.ToNumber (Binary64.typed_at data i))
  = Binary64.sample_abs data i.
Proof.
  unfold Binary64.sample_abs, Binary64.typed_at, Binary64.Math_abs.
  by destruct (data !! i).
Qed.

Lemma binary64_accumulate_snoc (p : bool) (l : list float) (x : float) :
  Binary64.accumulate p (l ++ [x])
  = if p then Binary64.Math_max (Binary64.accumulate p l) x
    else (Binary64.accumulate p l + x)%float.
Proof.
  unfold Binary64.accumulate, Binary64.greatest, Binary64.summed.
  destruct p; by rewrite foldl_app.
Qed.

Lemma binary64_result_at_S (data : list float) (m : Z) (p : bool) (k j b : nat) :
  Binary64.position (length data) m k = Some b →
  Binary64.result_at data m p (S k) j
  = if decide (j = b)
    then Binary64.Num
           (if p
            then Binary64.Math_max
                   (Binary64.ToNumber (Binary64.result_at data m p k b))
                   (Binary64.Math_abs
                      (Binary64.ToNumber (Binary64.typed_at data k)))
            else (Binary64.ToNumber (Binary64.result_at data m p k b)
                  + Binary64.Math_abs
                      (Binary64.ToNumber (Binary64.typed_at data k)))%float)
    else Binary64.result_at data m p k j.
Proof.
  intros Hb. unfold Binary64.result_at. rewrite binary64_members_S, Hb.
  destruct (decide (j = b)) as [->|Hne].
  - rewrite decide_True by done. rewrite fmap_app.
    change (Binary64.sample_abs data <$> [k]) with [Binary64.sample_abs data k].
    rewrite binary64_accumulate_snoc, binary64_sample_abs_eq. by destruct p.
  - rewrite decide_False by congruence. by rewrite app_nil_r.
Qed.

Lemma binary64_count_at_S (data : list float) (m : Z) (k j b : nat) :
  Binary64.position (length data) m k = Some b →
  Binary64.count_at data m (S k) j
  = if decide (j = b)
    then Binary64.Num
           (Binary64.ToNumber (Binary64.count_at data m k b) + Binary64.of_Z 1)%float
    else Binary64.count_at data m k j.
Proof.
  intros Hb. unfold Binary64.count_at. rewrite binary64_members_S, Hb.
  destruct (decide (j = b)) as [->|Hne].
  - rewrite decide_True by done. rewrite length_app, Nat.add_1_r. done.
  - rewrite decide_False by congruence. by rewrite app_nil_r.
Qed.

Lemma binary64_downsample_step_tab (data : list float) (m : Z) (p : bool)
    (k : nat) :
  Binary64.positions_in_range (length data) m = true → (k < length data)%nat →
  Binary64.downsample_step data m p
    (Binary64.result_at data m p k <$> seq 0 (Z.to_nat m),
     Binary64.count_at data m k <$> seq 0 (Z.to_nat m)) k
  = (Binary64.result_at data m p (S k) <$> seq 0 (Z.to_nat m),
     Binary64.count_at data m (S k) <$> seq 0 (Z.to_nat m)).
Proof.
  intros Hall Hk.
  destruct (binary64_position_lt _ _ _ Hall Hk) as (b & Hb & Hlt).
  unfold Binary64.downsample_step, Binary64.array_set, Binary64.array_get.
  cbn [fst snd].
  change (Binary64.array_index (Binary64.Math_floor _))
    with (Binary64.position (length data) m k).
  rewrite Hb, !binary64_array_at_tab by done.
  f_equal.
  - rewrite (tab_ext (Binary64.result_at data m p (S k)) _ _
               (λ j _, binary64_result_at_S data m p k j b Hb)).
    destruct p; by rewrite binary64_array_put_tab by done.
  - rewrite (tab_ext (Binary64.count_at data m (S k)) _ _
               (λ j _, binary64_count_at_S data m k j b Hb)).
    by rewrite binary64_array_put_tab by done.
Qed.

Lemma binary64_downsample_loop (data : list float) (m : Z) (p : bool) (k : nat) :
  Binary64.positions_in_range (length data) m = true → (k ≤ length data)%nat →
  foldl (Binary64.downsample_step data m p)
    (Binary64.fill (replicate (Z.to_nat m) Binary64.Undefined)
       (Binary64.Num (Binary64.of_Z 0)),
     Binary64.fill (replicate (Z.to_nat m) Binary64.Undefined)
       (Binary64.Num (Binary64.of_Z 0)))
    (seq 0 k)
  = (Binary64.result_at data m p k <$> seq 0 (Z.to_nat m),
     Binary64.count_at data m k <$> seq 0 (Z.to_nat m)).
Proof.
  intros Hall. induction k as [|k IH]; intros Hk.
  - cbn [seq foldl]. unfold Binary64.fill. rewrite length_replicate, tab_replicate.
    f_equal; apply tab_ext; intros j _; try done. by destruct p.
  - rewrite seq_S, foldl_app, IH by lia. cbn [foldl Nat.add].
    apply binary64_downsample_step_tab; [done|lia].
Qed.

Lemma binary64_average_loop (f g : nat → Binary64.value) (len k : nat) :
  (k ≤ len)%nat →
  foldl (Binary64.average_step (g <$> seq 0 len)) (f <$> seq 0 len) (seq 0 k)
  = (λ j, if decide (j < k)%nat
          then Binary64.Num (Binary64.ToNumber (f j) / Binary64.ToNumber (g j))%float
          else f j) <$> seq 0 len.
Proof.
  induction k as [|k IH]; intros Hk.
  - cbn [seq foldl]. apply tab_ext. intros j _. by rewrite decide_False by lia.
  - rewrite seq_S, foldl_app, IH by lia. cbn [foldl Nat.add].
    unfold Binary64.average_step.
    rewrite !binary64_array_at_tab, binary64_array_put_tab by lia.
    apply tab_ext. intros j _.
    rewrite (decide_False (P := (k < k)%nat)) by lia.
    destruct (decide (j = k)) as [->|Hne].
    + by rewrite decide_True by lia.
    + destruct (decide (j < k)%nat).
      * by rewrite decide_True by lia.
      * by rewrite decide_False by lia.
Qed.

(** The array a call returns when it downsamples. *)
Lemma binary64_downsample_tab (data : list float) (m : Z) (p : bool) :
  0 ≤ m ≤ Z.of_nat (length data) → m ≤ 4294967295 →
  Binary64.positions_in_range (length data) m = true →
  Binary64.normalizeArray data m p
  = Normal
      ((λ j, Binary64.Num
               (if p
                then Binary64.greatest
                       (Binary64.sample_abs data
                        <$> Binary64.members (length data) m (length data) j)
                else (Binary64.summed
                        (Binary64.sample_abs data
                         <$> Binary64.members (length data) m (length data) j)
                      / Binary64.counted
                          (length (Binary64.members (length data) m
                                     (length data) j)))%float))
       <$> seq 0 (Z.to_nat m)).
Proof.
  intros Hm Hmax Hall. unfold Binary64.normalizeArray, Binary64.new_Array.
  rewrite decide_True by lia. rewrite decide_True by lia.
  f_equal. unfold Binary64.downsample.
  rewrite binary64_downsample_loop by (done || lia).
  cbn [fst snd]. destruct p; cbn [negb]; [done|].
  rewrite length_fmap, length_seq, binary64_average_loop by lia.
  apply tab_ext. intros j Hj. by rewrite decide_True.
Qed.

(** ** The upsampling loop *)

Lemma binary64_upsample_step_value (data : list float) (m : Z)
    (result : list Binary64.value) (i : nat) :
  Binary64.upsample_step data m result i
  = Binary64.array_put result i (Binary64.upsample_value data m i).
Proof.
  unfold Binary64.upsample_step, Binary64.upsample_value.
  by destruct (_ <=? _)%float.
Qed.

Lemma binary64_upsample_loop (data : list float) (m : Z)
    (f : nat → Binary64.value) (len k : nat) :
  (k ≤ len)%nat →
  foldl (Binary64.upsample_step data m) (f <$> seq 0 len) (seq 0 k)
  = (λ j, if decide (j < k)%nat then Binary64.upsample_value data m j else f j)
    <$> seq 0 len.
Proof.
  induction k as [|k IH]; intros Hk.
  - cbn [seq foldl]. apply tab_ext. intros j _. by rewrite decide_False by lia.
  - rewrite seq_S, foldl_app, IH by lia. cbn [foldl Nat.add].
    rewrite binary64_upsample_step_value, binary64_array_put_tab by lia.
    apply tab_ext. intros j _.
    destruct (decide (j = k)) as [->|Hne].
    + by rewrite decide_True by lia.
    + destruct (decide (j < k)%nat).
      * by rewrite decide_True by lia.
      * by rewrite decide_False by lia.
Qed.

Lemma binary64_upsample_tab (data : list float) (m : Z) (p : bool) :
  Z.of_nat (length data) < m → m ≤ 4294967295 →
  Binary64.normalizeArray data m p
  = Normal (Binary64.upsample_value data m <$> seq 0 (Z.to_nat m)).
Proof.
  intros Hm Hmax. unfold Binary64.normalizeArray, Binary64.new_Array.
  rewrite decide_True by lia. rewrite decide_False by lia.
  f_equal. unfold Binary64.upsample.
  rewrite tab_replicate, binary64_upsample_loop by lia.
  apply tab_ext. intros j Hj. by rewrite decide_True.
Qed.

(** ** Order of the doubles that are not negative *)

Lemma sf_compare_finite (m1 m2 : positive) (e1 e2 : Z) :
  match
    match e1 ?= e2 with
    | Eq => Pos.compare_cont Eq m1 m2
    | Lt => Lt
    | Gt => Gt
    end
  with
  | Gt => ¬ (e1 < e2 ∨ (e1 = e2 ∧ (m1 ≤ m2)%positive))
  | _ => e1 < e2 ∨ (e1 = e2 ∧ (m1 ≤ m2)%positive)
  end.
Proof.
  change (Pos.compare_cont Eq m1 m2) with (m1 ?= m2)%positive.
  destruct (Z.compare_spec e1 e2); [|lia..].
  destruct (Pos.compare_spec m1 m2); lia.
Qed.

Lemma sf_compare_finite_lt (m1 m2 : positive) (e1 e2 : Z) :
  match e1 ?= e2 with
  | Eq => Pos.compare_cont Eq m1 m2
  | Lt => Lt
  | Gt => Gt
  end = Lt →
  ¬ (e2 < e1 ∨ (e2 = e1 ∧ (m2 ≤ m1)%positive)).
Proof.
  change (Pos.compare_cont Eq m1 m2) with (m1 ?= m2)%positive.
  destruct (Z.compare_spec e1 e2); [|lia|discriminate].
  destruct (Pos.compare_spec m1 m2); (discriminate || lia).
Qed.

Lemma sf_leb_le (f g : spec_float) :
  Binary64.sf_nonneg f → Binary64.sf_nonneg g → (SFleb f g = true ↔ Binary64.sf_le f g).
Proof.
  destruct f as [[]|[]| |[] m1 e1], g as [[]|[]| |[] m2 e2];
    cbn; try tauto; try (intuition discriminate).
  intros _ _. pose proof (sf_compare_finite m1 m2 e1 e2) as H.
  destruct (match e1 ?= e2 with Eq => _ | Lt => Lt | Gt => Gt end);
    intuition discriminate.
Qed.

Lemma sf_ltb_not_le (f g : spec_float) :
  Binary64.sf_nonneg f → Binary64.sf_nonneg g → SFltb f g = true → ¬ Binary64.sf_le g f.
Proof.
  destruct f as [[]|[]| |[] m1 e1], g as [[]|[]| |[] m2 e2];
    cbn; try tauto; try (intuition discriminate).
  intros _ _ Hlt. apply sf_compare_finite_lt.
  by destruct (match e1 ?= e2 with Eq => _ | Lt => Lt | Gt => Gt end).
Qed.

Lemma sf_not_ltb_le (f g : spec_float) :
  Binary64.sf_nonneg f → Binary64.sf_nonneg g → SFltb f g = false → Binary64.sf_le g f.
Proof.
  destruct f as [[]|[]| |[] m1 e1], g as [[]|[]| |[] m2 e2];
    cbn; try tauto; try (intuition discriminate).
  intros _ _ Hlt. pose proof (sf_compare_finite m1 m2 e1 e2) as H.
  destruct (Z.compare_spec e1 e2) as [->| |]; try lia; try discriminate.
  change (Pos.compare_cont Eq m1 m2) with (m1 ?= m2)%positive in *.
  destruct (Pos.compare_spec m1 m2); try discriminate; lia.
Qed.

Lemma sf_le_total (f g : spec_float) :
  Binary64.sf_nonneg f → Binary64.sf_nonneg g → Binary64.sf_le f g ∨ Binary64.sf_le g f.
Proof.
  destruct f as [[]|[]| |[] m1 e1], g as [[]|[]| |[] m2 e2]; cbn; try tauto.
  intros _ _. lia.
Qed.

Lemma sf_le_refl (f : spec_float) : Binary64.sf_nonneg f → Binary64.sf_le f f.
Proof. destruct f as [[]|[]| |[] m1 e1]; cbn; try tauto. intros _. lia. Qed.

Lemma sf_le_trans (f g h : spec_float) :
  Binary64.sf_nonneg f → Binary64.sf_nonneg g → Binary64.sf_nonneg h → Binary64.sf_le f g → Binary64.sf_le g h → Binary64.sf_le f h.
Proof.
  destruct f as [[]|[]| |[] m1 e1], g as [[]|[]| |[] m2 e2],
    h as [[]|[]| |[] m3 e3]; cbn; try tauto.
  intros _ _ _. lia.
Qed.

Lemma binary64_nonneg_sf (x : float) : Binary64.nonneg x ↔ Binary64.sf_nonneg (Prim2SF x).
Proof.
  unfold Binary64.nonneg. rewrite leb_spec.
  change (Prim2SF 0) with (S754_zero false).
  destruct (Prim2SF x) as [[]|[]| |[] m e]; cbn; intuition discriminate.
Qed.

Lemma binary64_leb_sf_le (x y : float) :
  Binary64.nonneg x → Binary64.nonneg y → ((x <=? y)%float = true ↔ Binary64.sf_le (Prim2SF x) (Prim2SF y)).
Proof.
  intros Hx%binary64_nonneg_sf Hy%binary64_nonneg_sf. rewrite leb_spec. by apply sf_leb_le.
Qed.

Lemma binary64_nonneg_not_nan (x : float) : Binary64.nonneg x → is_nan x = false.
Proof.
  intros Hx. unfold is_nan. rewrite FloatAxioms.eqb_spec.
  pose proof (proj1 (binary64_nonneg_sf x) Hx) as Hsf.
  pose proof (proj2 (sf_leb_le _ _ Hsf Hsf) (sf_le_refl _ Hsf)) as Hle.
  pose proof (sf_ltb_not_le _ _ Hsf Hsf) as Hlt.
  unfold SFleb, SFltb, SFeqb in *.
  destruct (SFcompare (Prim2SF x) (Prim2SF x)) as [[]|]; try done.
  destruct Hlt; [done|]. by apply sf_le_refl.
Qed.

Lemma binary64_abs_nonneg (x : float) : is_nan x = false → Binary64.nonneg (abs x).
Proof.
  intros Hx. apply binary64_nonneg_sf. rewrite abs_spec.
  unfold is_nan in Hx. rewrite FloatAxioms.eqb_spec in Hx.
  destruct (Prim2SF x) as [[]|[]| |[] m e]; cbn in *; done.
Qed.

Lemma binary64_leb_refl (x : float) : Binary64.nonneg x → (x <=? x)%float = true.
Proof. intros Hx. apply binary64_leb_sf_le; [done..|]. by apply sf_le_refl, binary64_nonneg_sf. Qed.

Lemma binary64_leb_trans (x y z : float) :
  Binary64.nonneg x → Binary64.nonneg y → Binary64.nonneg z →
  (x <=? y)%float = true → (y <=? z)%float = true → (x <=? z)%float = true.
Proof.
  intros Hx Hy Hz Hxy%binary64_leb_sf_le Hyz%binary64_leb_sf_le; try done.
  apply binary64_leb_sf_le; [done..|].
  eapply (sf_le_trans _ (Prim2SF y)); try done; by apply binary64_nonneg_sf.
Qed.

(** [Math.max] of two such values is one of them and at least both. *)
Lemma binary64_Math_max_nonneg (x y : float) :
  Binary64.nonneg x → Binary64.nonneg y →
  (Binary64.Math_max x y = x ∨ Binary64.Math_max x y = y) ∧
  (x <=? Binary64.Math_max x y)%float = true ∧
  (y <=? Binary64.Math_max x y)%float = true.
Proof.
  intros Hx Hy. unfold Binary64.Math_max.
  rewrite (binary64_nonneg_not_nan x Hx), (binary64_nonneg_not_nan y Hy). cbn [orb].
  pose proof (proj1 (binary64_nonneg_sf x) Hx) as Hsx.
  pose proof (proj1 (binary64_nonneg_sf y) Hy) as Hsy.
  destruct (x <? y)%float eqn:Hxy; rewrite ltb_spec in Hxy.
  { split; [by right|]. split; [|by apply binary64_leb_refl].
    apply binary64_leb_sf_le; [done..|].
    destruct (sf_le_total _ _ Hsx Hsy) as [|Hle]; [done|].
    by destruct (sf_ltb_not_le _ _ Hsx Hsy Hxy). }
  destruct (y <? x)%float eqn:Hyx; rewrite ltb_spec in Hyx.
  { split; [by left|]. split; [by apply binary64_leb_refl|].
    apply binary64_leb_sf_le; [done..|].
    destruct (sf_le_total _ _ Hsx Hsy) as [Hle|]; [|done].
    by destruct (sf_ltb_not_le _ _ Hsy Hsx Hyx). }
  pose proof (sf_not_ltb_le _ _ Hsx Hsy Hxy) as Hle1.
  pose proof (sf_not_ltb_le _ _ Hsy Hsx Hyx) as Hle2.
  destruct (classify x);
    (split; [by (left + right)|]);
    (split; [by (apply binary64_leb_refl || (apply binary64_leb_sf_le; done))
            |by (apply binary64_leb_refl || (apply binary64_leb_sf_le; done))]).
Qed.

Lemma binary64_greatest_from (l : list float) (a : float) :
  Binary64.nonneg a → Forall Binary64.nonneg l →
  Binary64.nonneg (foldl Binary64.Math_max a l) ∧
  (a <=? foldl Binary64.Math_max a l)%float = true ∧
  (∀ x, x ∈ l → (x <=? foldl Binary64.Math_max a l)%float = true) ∧
  (foldl Binary64.Math_max a l = a ∨ foldl Binary64.Math_max a l ∈ l).
Proof.
  revert a. induction l as [|y l IH]; intros a Ha Hl; cbn [foldl].
  - split; [done|]. split; [by apply binary64_leb_refl|]. split; [|by left].
    intros x Hx. by apply elem_of_nil in Hx.
  - apply Forall_cons in Hl as [Hy Hl].
    destruct (binary64_Math_max_nonneg a y Ha Hy) as (Hcase & Hge_a & Hge_y).
    assert (Hmax : Binary64.nonneg (Binary64.Math_max a y))
      by (by destruct Hcase as [-> | ->]).
    destruct (IH _ Hmax Hl) as (Hnn & Hge & Hall & Hin).
    split; [done|].
    split; [by apply (binary64_leb_trans a (Binary64.Math_max a y))|]. split.
    + intros x [->|Hx]%elem_of_cons; [|by apply Hall].
      apply (binary64_leb_trans _ (Binary64.Math_max a y)); try done.
    + destruct Hin as [Heq|Hin].
      * rewrite Heq. destruct Hcase as [-> | ->]; [by left|].
        right. apply elem_of_cons. by left.
      * right. apply elem_of_cons. by right.
Qed.

Lemma binary64_greatest_is_peak (l : list float) :
  Forall Binary64.nonneg l → Binary64.is_peak l (Binary64.greatest l).
Proof.
  intros Hl. unfold Binary64.is_peak, Binary64.greatest.
  assert (H0 : Binary64.nonneg 0) by done.
  destruct (binary64_greatest_from l 0 H0 Hl) as (Hnn & Hge & Hall & Hin). done.
Qed.

(** ** NaN *)

Lemma binary64_nan_mul_l (x : float) : (nan * x)%float = nan.
Proof. apply Prim2SF_inj. rewrite mul_spec. reflexivity. Qed.

Lemma binary64_nan_add_l (x : float) : (nan + x)%float = nan.
Proof. apply Prim2SF_inj. rewrite add_spec. reflexivity. Qed.


Lemma binary64_sample_abs_nonneg (data : list float) (n : nat) (m : Z)
    (k j : nat) :
  Forall (λ x, is_nan x = false) data → (k ≤ length data)%nat →
  Forall Binary64.nonneg (Binary64.sample_abs data <$> Binary64.members n m k j).
Proof.
  intros Hdata Hk. apply Forall_fmap, Forall_forall. intros i Hi.
  apply binary64_members_lt in Hi as [Hi _].
  destruct (lookup_lt_is_Some_2 data i ltac:(lia)) as [x Hx].
  unfold Binary64.sample_abs, compose. rewrite Hx. cbn.
  apply binary64_abs_nonneg. by apply (Forall_lookup_1 _ _ _ _ Hdata Hx).
Qed.

(** ** Downsampling: the value of each element *)







(** ** Upsampling: the value of each element *)

(** With exact numbers the first output is the first sample and the last
    output is the last sample: there the interpolation has [t = 0].  The
    machine computes the first position, [0], without error, and the last
    one, [((m - 1) * (n - 1)) / (m - 1)], when the product is below [2^53];
    [x * 1 + x * 0] is [x] for a finite [x]. *)
Lemma upsample_ends (data : Float32Array) (m : Z) (p memoize : bool)
    (σ : State) :
  1 ≤ Z.of_nat (length (samples data)) < m →
  computes data m p memoize σ →
  ∃ out,
    returns_array (normalizeArray data m p memoize) σ out ∧
    length out = Z.to_nat m ∧
    out !! 0%nat = (λ x, Num (Fin x)) <$> samples data !! 0%nat ∧
    out !! Z.to_nat (m - 1) = (λ x, Num (Fin x)) <$> last (samples data).
Proof.
  intros Hm Hmiss. exists (resample_val (samples data) m p).
  split; [apply normalizeArray_returns; [lia|done]|].
  rewrite resample_val_up by lia.
  split; [by rewrite length_fmap, length_seq|].
  split.
  - destruct (upsample_value_lerp (samples data) m 0 Hm ltac:(lia))
      as (y & Hy & Hv & _).
    rewrite tab_lookup, Hv by lia.
    by rewrite <- (lerp_first _ m), Hy by done.
  - destruct (upsample_value_lerp (samples data) m (Z.to_nat (m - 1)) Hm
                ltac:(lia)) as (y & Hy & Hv & _).
    rewrite tab_lookup, Hv by lia.
    by rewrite <- (lerp_last _ m), Hy by done.
Qed.



Lemma binary64_array_index_of (x : float) (k : Z) (i : nat) :
  Binary64.integer_of x = Some k → 0 ≤ k ≤ 4294967294 → Z.of_nat i = k →
  Binary64.array_index x = Some i.
Proof.
  intros Hx Hk Hi. unfold Binary64.array_index. rewrite Hx.
  rewrite decide_True by exact Hk. apply f_equal. lia.
Qed.

(** The last output for [m = 3226032747] and [n = 974688457]: the product
    [(m - 1) * (n - 1)] is rounded, and the position computed from it is
    [974688455.9999999], not [n - 1 = 974688456]. *)
Lemma binary64_upsample_value_long (data : list float) (i lo hi : nat)
    (x y : float) :
  Z.of_nat (length data) = 974688457 → Z.of_nat i = 3226032746 →
  Z.of_nat lo = 974688455 → Z.of_nat hi = 974688456 →
  data !! lo = Some x → data !! hi = Some y →
  Binary64.upsample_value data 3226032747 i
  = Binary64.Num (x * (1 - 8388607 / 8388608) + y * (8388607 / 8388608))%float.
Proof.
  intros Hn Hi Hlo Hhi Hx Hy.
  unfold Binary64.upsample_value, Binary64.of_nat. rewrite Hn, Hi.
  assert (Hpos : ((Binary64.of_Z 3226032746
                   * (Binary64.of_Z 974688457 - Binary64.of_Z 1))
                  / (Binary64.of_Z 3226032747 - Binary64.of_Z 1))%float
                 = (8176279379509247 / 8388608)%float)
    by (vm_compute; reflexivity).
  rewrite Hpos.
  assert (Hfloor : Binary64.Math_floor (8176279379509247 / 8388608)
                   = Binary64.of_Z 974688455) by (vm_compute; reflexivity).
  assert (Hceil : Binary64.Math_ceil (8176279379509247 / 8388608)
                  = Binary64.of_Z 974688456) by (vm_compute; reflexivity).
  rewrite Hfloor, Hceil.
  assert (Hge : (Binary64.of_Z 974688457 <=? Binary64.of_Z 974688456)%float
                = false) by (vm_compute; reflexivity).
  rewrite Hge.
  assert (Hilo : Binary64.array_index (Binary64.of_Z 974688455) = Some lo).
  { apply (binary64_array_index_of _ 974688455); [vm_compute; reflexivity|lia|lia]. }
  assert (Hihi : Binary64.array_index (Binary64.of_Z 974688456) = Some hi).
  { apply (binary64_array_index_of _ 974688456); [vm_compute; reflexivity|lia|lia]. }
  unfold Binary64.typed_get, Binary64.typed_at. rewrite Hilo, Hihi, Hx, Hy.
  cbn [from_option Binary64.ToNumber].
  assert (Ht : (8176279379509247 / 8388608 - Binary64.of_Z 974688455)%float
               = (8388607 / 8388608)%float) by (vm_compute; reflexivity).
  rewrite Ht.
  assert (H1 : Binary64.of_Z 1 = 1%float) by (vm_compute; reflexivity).
  rewrite H1. reflexivity.
Qed.


(** ** Inputs outside the contract, on doubles *)

(** Below the length limit the call returns. *)
Lemma binary64_total (data : list float) (m : Z) (p : bool) :
  0 ≤ m ≤ 4294967295 → ∃ out, Binary64.normalizeArray data m p = Normal out.
Proof.
  intros Hm. unfold Binary64.normalizeArray, Binary64.new_Array.
  rewrite decide_True by done. destruct (decide (m ≤ _)); eauto.
Qed.

Lemma binary64_typed_get_nil (x : float) :
  Binary64.typed_get [] x = Binary64.Undefined.
Proof. unfold Binary64.typed_get. by destruct (Binary64.array_index x). Qed.

Lemma binary64_upsample_value_nil (m : Z) (i : nat) :
  Binary64.upsample_value [] m i = Binary64.Undefined ∨
  Binary64.upsample_value [] m i = Binary64.Num nan.
Proof.
  unfold Binary64.upsample_value. destruct (_ <=? _)%float.
  - left. apply binary64_typed_get_nil.
  - right. rewrite !binary64_typed_get_nil. cbn [Binary64.ToNumber].
    by rewrite !binary64_nan_mul_l, binary64_nan_add_l.
Qed.

Lemma binary64_empty (m : Z) (p : bool) :
  1 ≤ m ≤ 4294967295 →
  ∃ out, Binary64.normalizeArray [] m p = Normal out ∧
         length out = Z.to_nat m ∧
         ∀ v, v ∈ out → v = Binary64.Undefined ∨ v = Binary64.Num nan.
Proof.
  intros Hm. eexists. split.
  { apply binary64_upsample_tab; cbn [length]; lia. }
  split; [by rewrite length_fmap, length_seq|].
  intros v (i & -> & _)%list_elem_of_fmap. apply binary64_upsample_value_nil.
Qed.


(** ** The cache across calls *)

(** The three ways a call can go. *)
Lemma normalizeArray_cases (data : Float32Array) (m : Z) (p memoize : bool)
    (σ : State) :
  (memoize = true ∧
   ∃ l, cached σ (buffer_id data) (pretty m) (bool_toString p) = Some l ∧
        normalizeArray data m p memoize σ = (Normal l, σ)) ∨
  (computes data m p memoize σ ∧ 0 ≤ m ∧
   normalizeArray data m p memoize σ
   = (Normal (length (arrays σ)),
      {| arrays := arrays σ ++ [resample_val (samples data) m p];
         dataMap :=
           if memoize
           then cache_store (buffer_id data) (pretty m) (bool_toString p)
                  (length (arrays σ))
                  (cache_touch (buffer_id data) (pretty m) (dataMap σ))
           else dataMap σ;
         contexts := contexts σ |})) ∨
  (computes data m p memoize σ ∧ m < 0 ∧
   normalizeArray data m p memoize σ
   = (Throw RangeError,
      {| arrays := arrays σ;
         dataMap := if memoize
                    then cache_touch (buffer_id data) (pretty m) (dataMap σ)
                    else dataMap σ;
         contexts := contexts σ |})).
Proof.
  assert (Hc : (memoize = true ∧
                ∃ l, cached σ (buffer_id data) (pretty m) (bool_toString p)
                     = Some l) ∨ computes data m p memoize σ).
  { unfold computes. destruct memoize; [|by right].
    destruct (cached σ _ _ _) as [l|] eqn:Hl; [left; eauto|by right]. }
  destruct Hc as [[-> [l Hl]]|Hmiss].
  - left. split; [done|]. exists l. split; [done|]. by apply normalizeArray_hit.
  - right. destruct (decide (0 ≤ m)).
    + left. split; [done|]. split; [done|]. by apply normalizeArray_miss.
    + right. split; [done|]. split; [lia|]. apply normalizeArray_negative; [lia|done].
Qed.

(** A call never removes or changes a cache entry, never changes an array
    of the store, and keeps the cache well-formed. *)
Lemma do_call_cached (σ : State) (c : call) (id : nat) (mKey dKey : string)
    (l : nat) :
  cached σ id mKey dKey = Some l → cached (do_call σ c) id mKey dKey = Some l.
Proof.
  intros Hl. unfold do_call.
  destruct (normalizeArray_cases (call_data c) (call_m c) (call_peaks c)
              (call_memoize c) σ)
    as [(_ & l' & _ & ->)|[(Hmiss & _ & ->)|(Hmiss & _ & ->)]];
    [done| |]; cbn [snd]; unfold cached in *; cbn [dataMap];
    destruct (call_memoize c); try done.
  - rewrite cache_entry_store, cache_entry_touch.
    destruct (decide _) as [(<- & <- & <-)|]; [|done].
    unfold computes, cached in Hmiss. by rewrite (Hmiss eq_refl) in Hl.
  - by rewrite cache_entry_touch.
Qed.

Lemma do_call_arrays (σ : State) (c : call) (l : nat) :
  (l < length (arrays σ))%nat →
  arrays (do_call σ c) !! l = arrays σ !! l ∧
  (l < length (arrays (do_call σ c)))%nat.
Proof.
  intros Hl. unfold do_call.
  destruct (normalizeArray_cases (call_data c) (call_m c) (call_peaks c)
              (call_memoize c) σ)
    as [(_ & l' & _ & ->)|[(_ & _ & ->)|(_ & _ & ->)]];
    cbn [snd arrays]; try done.
  rewrite lookup_app_l, length_app by done. split; [done|lia].
Qed.

Lemma do_call_wf (σ : State) (c : call) : cache_wf σ → cache_wf (do_call σ c).
Proof.
  intros [Hin Hinj]. unfold do_call.
  destruct (normalizeArray_cases (call_data c) (call_m c) (call_peaks c)
              (call_memoize c) σ)
    as [(_ & l' & _ & ->)|[(Hmiss & _ & ->)|(Hmiss & _ & ->)]];
    [done| |]; cbn [snd]; unfold cache_wf, cached in *; cbn [dataMap arrays];
    destruct (call_memoize c); try rewrite length_app; cbn [length].
  - split.
    + intros id mKey dKey l. rewrite cache_entry_store, cache_entry_touch.
      destruct (decide _); [intros [= <-]; lia|].
      intros Hl%Hin. lia.
    + intros id mKey dKey id' mKey' dKey' l.
      rewrite !cache_entry_store, !cache_entry_touch.
      destruct (decide _) as [(<- & <- & <-)|];
        destruct (decide _) as [(<- & <- & <-)|]; try done.
      * intros [= <-] Hl%Hin. lia.
      * intros Hl%Hin [= <-]. lia.
      * apply Hinj.
  - split.
    + intros id mKey dKey l Hl%Hin. lia.
    + apply Hinj.
  - split.
    + intros id mKey dKey l. rewrite cache_entry_touch. apply Hin.
    + intros id mKey dKey id' mKey' dKey' l. rewrite !cache_entry_touch.
      apply Hinj.
  - done.
Qed.

Lemma run_calls_cached (cs : list call) (σ : State) (id : nat)
    (mKey dKey : string) (l : nat) :
  cached σ id mKey dKey = Some l → cached (run_calls cs σ) id mKey dKey = Some l.
Proof.
  revert σ. induction cs as [|c cs IH]; intros σ Hl; [done|].
  apply IH. by apply do_call_cached.
Qed.

Lemma run_calls_arrays (cs : list call) (σ : State) (l : nat) :
  (l < length (arrays σ))%nat → arrays (run_calls cs σ) !! l = arrays σ !! l.
Proof.
  revert σ. induction cs as [|c cs IH]; intros σ Hl; [done|].
  destruct (do_call_arrays σ c l Hl) as [<- Hl'].
  by apply IH.
Qed.

Lemma run_calls_wf (cs : list call) (σ : State) :
  cache_wf σ → cache_wf (run_calls cs σ).
Proof.
  revert σ. induction cs as [|c cs IH]; intros σ Hwf; [done|].
  by apply IH, do_call_wf.
Qed.

Lemma initial_wf : cache_wf initial.
Proof. split; intros *; unfold cached, cache_entry; cbn; by rewrite lookup_empty. Qed.

(** After a memoized call that returned [l], the entry of its key is [l]. *)
Lemma normalizeArray_populates (data : Float32Array) (m : Z) (p : bool)
    (σ σ1 : State) (l : nat) :
  normalizeArray data m p true σ = (Normal l, σ1) →
  cached σ1 (buffer_id data) (pretty m) (bool_toString p) = Some l.
Proof.
  destruct (normalizeArray_cases data m p true σ)
    as [(_ & l' & Hl' & ->)|[(_ & _ & ->)|(_ & _ & ->)]]; intros [= <- <-].
  - done.
  - unfold cached. cbn [dataMap]. rewrite cache_entry_store.
    by rewrite decide_True.
Qed.

(** C6: a memoized call that returns leaves its array in the cache under
    the key of the call; once an entry exists, every later memoized call
    with the same buffer instance, [m] and mode, after any sequence of other
    calls, returns that same array instance, unchanged (same length and
    values), and leaves the store as it is; a memoized call with the same
    buffer and another [m] or mode returns another array instance. *)
Theorem memoized_call_reuses_array :
  (∀ (data : Float32Array) (m : Z) (p : bool) (σ σ1 : State) (l : nat),
     normalizeArray data m p true σ = (Normal l, σ1) →
     cached σ1 (buffer_id data) (pretty m) (bool_toString p) = Some l) ∧
  (∀ (data : Float32Array) (m : Z) (p : bool) (σ : State) (l : nat)
     (cs : list call) (data' : Float32Array),
     cache_wf σ →
     cached σ (buffer_id data) (pretty m) (bool_toString p) = Some l →
     buffer_id data' = buffer_id data →
     normalizeArray data' m p true (run_calls cs σ)
     = (Normal l, run_calls cs σ) ∧
     is_Some (arrays σ !! l) ∧
     arrays (run_calls cs σ) !! l = arrays σ !! l) ∧
  (∀ (data : Float32Array) (m m' : Z) (p p' : bool) (σ σ1 σ2 : State)
     (l l' : nat),
     cache_wf σ →
     normalizeArray data m p true σ = (Normal l, σ1) →
     normalizeArray data m' p' true σ1 = (Normal l', σ2) →
     (m', p') ≠ (m, p) →
     l' ≠ l).
Proof.
  split; [|split].
  - apply normalizeArray_populates.
  - intros data m p σ l cs data' [Hin Hinj] Hl Hid.
    pose proof (Hin _ _ _ _ Hl) as Hlt. split; [|split].
    + apply normalizeArray_hit. rewrite Hid. by apply run_calls_cached.
    + by apply lookup_lt_is_Some_2.
    + by apply run_calls_arrays.
  - intros data m m' p p' σ σ1 σ2 l l' Hwf H1 H2 Hne Hll.
    assert (Hwf1 : cache_wf σ1).
    { assert (σ1 = (normalizeArray data m p true σ).2) as ->
        by (by rewrite H1).
      apply (do_call_wf σ {| call_data := data; call_m := m; call_peaks := p;
                             call_memoize := true |} Hwf). }
    apply normalizeArray_populates in H1.
    destruct Hwf1 as [Hin Hinj].
    destruct (normalizeArray_cases data m' p' true σ1)
      as [(_ & k & Hk & Heq)|[(_ & _ & Heq)|(_ & _ & Heq)]];
      rewrite Heq in H2; simplify_eq.
    + destruct (Hinj _ _ _ _ _ _ _ H1 Hk) as (_ & Hm & Hp).
      apply Hne. f_equal; [by apply (inj pretty)|by apply bool_toString_inj].
    + apply Hin in H1. lia.
Qed.

Lemma memoized_call_reuses_array_witness :
  let data := {| buffer_id := 0; samples := scenario_peak |} in
  let σ1 := (normalizeArray data 2 true true initial).2 in
  let cs := [ {| call_data := data; call_m := 4; call_peaks := false;
                 call_memoize := true |};
              {| call_data := {| buffer_id := 1; samples := scenario_ramp |};
                 call_m := 2; call_peaks := true; call_memoize := false |} ] in
  cached σ1 0%nat (pretty 2) (bool_toString true) = Some 0%nat ∧
  (normalizeArray {| buffer_id := 0; samples := scenario_ramp |} 2 true true
     (run_calls cs σ1)
   = (Normal 0%nat, run_calls cs σ1) ∧
   is_Some (arrays σ1 !! 0%nat) ∧
   arrays (run_calls cs σ1) !! 0%nat = arrays σ1 !! 0%nat) ∧
  (normalizeArray data 2 false true σ1).1 ≠ Normal 0%nat.
Proof.
  intros data σ1 cs.
  destruct memoized_call_reuses_array as (Hpop & Hreuse & Hother).
  assert (H1 : normalizeArray data 2 true true initial = (Normal 0%nat, σ1))
    by reflexivity.
  assert (Hwf1 : cache_wf σ1).
  { apply (do_call_wf initial {| call_data := data; call_m := 2;
                                 call_peaks := true; call_memoize := true |}).
    apply initial_wf. }
  split; [|split].
  - apply (Hpop data 2 true initial σ1 0%nat H1).
  - apply (Hreuse data 2 true σ1 0%nat cs
             {| buffer_id := 0; samples := scenario_ramp |} Hwf1).
    + apply (Hpop data 2 true initial σ1 0%nat H1).
    + reflexivity.
  - destruct (normalizeArray data 2 false true σ1) as [[l'|e] σ2] eqn:H2;
      [|discriminate].
    intros [= ->].
    apply (Hother data 2 2 true false initial σ1 σ2 0%nat 0%nat
             initial_wf H1 H2).
    + intros [= ?].
    + reflexivity.
Defined.

(** C10, as the code has it: for every buffer and every [m] from [0] to the
    length limit [2^32 - 1] of arrays the call returns an array and raises
    nothing; with a non-empty buffer and [m = 0] the array is the
    one-element array holding NaN; with the empty buffer and [m ≥ 1] it has
    length [m] and each of its entries is NaN or [undefined]. *)
Theorem normalizeArray_total_up_to_length_limit :
  (∀ (data : list float) (m : Z) (p : bool),
     0 ≤ m ≤ 4294967295 →
     ∃ out, Binary64.normalizeArray data m p = Normal out) ∧
  (∀ (data : Float32Array) (m : Z) (p memoize : bool) (σ : State),
     cache_wf σ → 0 ≤ m ≤ 4294967295 →
     ∃ out, returns_array (normalizeArray data m p memoize) σ out) ∧
  (∀ (data : Float32Array) (p memoize : bool) (σ : State),
     samples data ≠ [] → computes data 0 p memoize σ →
     returns_array (normalizeArray data 0 p memoize) σ [Num NaN]) ∧
  (∀ p, Binary64.normalizeArray Binary64.scenario_peak 0 p
        = Normal [Binary64.Num nan]) ∧
  (∀ (m : Z) (p : bool),
     1 ≤ m ≤ 4294967295 →
     ∃ out,
       Binary64.normalizeArray [] m p = Normal out ∧
       length out = Z.to_nat m ∧
       ∀ v, v ∈ out → v = Binary64.Undefined ∨ v = Binary64.Num nan).
Proof.
  split; [|split; [|split; [|split]]].
  - apply binary64_total.
  - intros data m p memoize σ [Hin _] Hm.
    destruct (normalizeArray_cases data m p memoize σ)
      as [(_ & l & Hl & Heq)|[(Hmiss & _ & _)|(_ & ? & _)]]; [| |lia].
    + destruct (lookup_lt_is_Some_2 (arrays σ) l) as [out Hout]; [by eapply Hin|].
      exists out, l, σ. by rewrite Heq.
    + eexists. apply normalizeArray_returns; [lia|done].
  - intros data p memoize σ Hne Hmiss.
    rewrite <- (resample_val_zero (samples data) p Hne).
    by apply normalizeArray_returns.
  - intros []; by vm_compute.
  - apply binary64_empty.
Qed.

Lemma normalizeArray_total_up_to_length_limit_witness :
  (∃ out, Binary64.normalizeArray Binary64.scenario_ramp 0 false = Normal out) ∧
  (∃ out,
     returns_array
       (normalizeArray {| buffer_id := 0; samples := scenario_ramp |}
          4294967295 false true) initial out) ∧
  returns_array
    (normalizeArray {| buffer_id := 0; samples := scenario_ramp |} 0 true true)
    initial [Num NaN] ∧
  (∃ out,
     Binary64.normalizeArray [] 3 true = Normal out ∧
     length out = 3%nat ∧
     ∀ v, v ∈ out → v = Binary64.Undefined ∨ v = Binary64.Num nan).
Proof.
  destruct normalizeArray_total_up_to_length_limit
    as (Htotal & Hstore & Hzero & _ & Hempty).
  split; [|split; [|split]].
  - apply (Htotal Binary64.scenario_ramp 0 false). lia.
  - apply (Hstore {| buffer_id := 0; samples := scenario_ramp |} 4294967295
             false true initial initial_wf). lia.
  - apply (Hzero {| buffer_id := 0; samples := scenario_ramp |} true true initial).
    + discriminate.
    + intros _. reflexivity.
  - apply (Hempty 3 true). lia.
Defined.

(** C10 as stated fails: [new Array(m)] raises a [RangeError] when [m]
    exceeds [2^32 - 1], so with [m = 2^32] the call raises it, for the empty
    buffer and for any other. *)
Lemma normalizeArray_fails_above_length_limit :
  ¬ (∀ (data : list float) (m : Z) (p : bool),
       0 ≤ m → ∃ out, Binary64.normalizeArray data m p = Normal out) ∧
  Binary64.normalizeArray [] 4294967296 false = Throw RangeError ∧
  Binary64.normalizeArray Binary64.scenario_peak 4294967296 true
  = Throw RangeError.
Proof.
  split; [|split; reflexivity].
  intros Htotal. destruct (Htotal [] 4294967296 false) as [out Hout]; [lia|].
  discriminate Hout.
Qed.

(** C1, as the code has it: a call with [m < 0] fails, whatever the buffer,
    and the error is the [RangeError] of the array constructor. *)
Theorem normalizeArray_fails_on_negative_length (data : Float32Array) (m : Z)
    (p memoize : bool) (σ : State) :
  computes data m p memoize σ → m < 0 →
  (normalizeArray data m p memoize σ).1 = Throw RangeError.
Proof. intros Hmiss Hm. by rewrite normalizeArray_negative. Qed.

Lemma normalizeArray_fails_on_negative_length_witness :
  (normalizeArray {| buffer_id := 0; samples := scenario_peak |} (-1) true true
     initial).1 = Throw RangeError.
Proof.
  apply (normalizeArray_fails_on_negative_length
           {| buffer_id := 0; samples := scenario_peak |} (-1) true true initial).
  - intros _. reflexivity.
  - lia.
Defined.

(** C1 as stated fails: with [m = 0], and with an empty buffer, the call
    returns an array. *)
Lemma invalid_arguments_not_rejected :
  ¬ (∀ (data : Float32Array) (m : Z) (p memoize : bool) (σ : State),
       m ≤ 0 ∨ samples data = [] →
       ∃ e, (normalizeArray data m p memoize σ).1 = Throw e) ∧
  (normalizeArray {| buffer_id := 0; samples := [ratio 1 2] |} 0 false false
     initial).1 = Normal 0%nat ∧
  (normalizeArray {| buffer_id := 0; samples := [] |} 2 false false
     initial).1 = Normal 0%nat.
Proof.
  split; [|split; reflexivity].
  intros Hfail.
  destruct (Hfail {| buffer_id := 0; samples := [ratio 1 2] |} 0 false false initial)
    as [e He]; [left; lia|].
  discriminate He.
Qed.

(** ** drawSpeechVisual *)

Lemma ctx_call_emit (ctx : nat) (op : draw_op) (σ : State) :
  ctx_call ctx op σ = (Normal tt, emit ctx [op] σ).
Proof. done. Qed.

Lemma emit_emit (ctx : nat) (a b : list draw_op) (σ : State) :
  emit ctx b (emit ctx a σ) = emit ctx (a ++ b) σ.
Proof.
  unfold emit, ctx_log. cbn [arrays dataMap contexts].
  rewrite lookup_insert_eq, insert_insert_eq. cbn. by rewrite app_assoc.
Qed.

Lemma resample_val_length (data : list Qc) (m : Z) (p : bool) :
  1 ≤ m → length (resample_val data m p) = Z.to_nat m.
Proof.
  intros Hm. destruct (decide (m ≤ Z.of_nat (length data))).
  - by destruct (resample_val_down data m p 0) as [-> _]; [lia..|].
  - rewrite resample_val_up by lia. by rewrite length_fmap, length_seq.
Qed.

Section Visualizer_properties.
Variables (Math_sin Math_cos : number → number) (Math_PI : number).
Variable Date_now : nat → number.

Lemma for_each_path (canvas : HTMLCanvasElement) (ctx : nat) (l : list nat)
    (pre : list draw_op) (σ : State) :
  for_each l (path_step Math_sin Math_cos Math_PI Date_now canvas ctx)
    (emit ctx pre σ)
  = (Normal tt,
     emit ctx (pre ++ (path_op Math_sin Math_cos Math_PI Date_now canvas <$> l)) σ).
Proof.
  revert pre. induction l as [|i l IH]; intros pre.
  - cbn [for_each fmap list_fmap]. by rewrite app_nil_r.
  - cbn [for_each]. unfold mbind at 1, M_bind at 1.
    assert (path_step Math_sin Math_cos Math_PI Date_now canvas ctx i
              (emit ctx pre σ)
            = (Normal tt,
               emit ctx (pre ++ [path_op Math_sin Math_cos Math_PI Date_now
                                   canvas i]) σ)) as ->.
    { unfold path_step, path_op.
      destruct (decide (i = 0%nat)); by rewrite ctx_call_emit, emit_emit. }
    rewrite IH. by rewrite <- app_assoc.
Qed.

(** One call of [drawSpeechVisual], from any store. *)
Lemma drawSpeechVisual_run (canvas : HTMLCanvasElement) (ctx : nat)
    (data : Float32Array) (speaking : speakingState) (σ : State) :
  drawSpeechVisual Math_sin Math_cos Math_PI Date_now canvas ctx data speaking σ
  = (Normal tt,
     emit ctx (frame Math_sin Math_cos Math_PI Date_now canvas)
       {| arrays := arrays σ ++ [resample_val (samples data) 10 true];
          dataMap := dataMap σ;
          contexts := contexts σ |}).
Proof.
  unfold drawSpeechVisual. unfold mbind at 1, M_bind at 1.
  rewrite normalizeArray_miss by (done || lia).
  set (σ0 := {| arrays := _; dataMap := _; contexts := _ |}).
  unfold mbind at 1, M_bind at 1. rewrite ctx_call_emit.
  unfold mbind at 1, M_bind at 1. rewrite ctx_call_emit, emit_emit.
  unfold mbind at 1, M_bind at 1. rewrite for_each_path.
  unfold mbind at 1, M_bind at 1. rewrite ctx_call_emit, emit_emit.
  unfold mbind at 1, M_bind at 1. rewrite ctx_call_emit, emit_emit.
  rewrite ctx_call_emit, emit_emit. by do 2 f_equal.
Qed.

(** C8: two calls on canvases of the same size, reading the same clock,
    send the same calls to their contexts, whatever the buffers and the
    speaking states: the calls are [frame], which knows neither. *)
Theorem drawing_ignores_buffer_and_speaker (canvas : HTMLCanvasElement)
    (ctx ctx' : nat) (data data' : Float32Array)
    (speaking speaking' : speakingState) (σ σ' : State) :
  ∃ τ τ',
    drawSpeechVisual Math_sin Math_cos Math_PI Date_now canvas ctx data
      speaking σ = (Normal tt, τ) ∧
    drawSpeechVisual Math_sin Math_cos Math_PI Date_now canvas ctx' data'
      speaking' σ' = (Normal tt, τ') ∧
    ctx_log τ ctx
    = ctx_log σ ctx ++ frame Math_sin Math_cos Math_PI Date_now canvas ∧
    ctx_log τ' ctx'
    = ctx_log σ' ctx' ++ frame Math_sin Math_cos Math_PI Date_now canvas.
Proof.
  eexists _, _. rewrite !drawSpeechVisual_run.
  split; [done|]. split; [done|].
  unfold emit, ctx_log. cbn [contexts]. by rewrite !lookup_insert_eq.
Qed.


(** C4, as the code has it: a call obtains its 10-point summary from
    [normalizeArray(data, 10, true)], the peak flag set and [memoize] left
    at its default [false]: a new array of length 10 each time, and the
    cache neither read nor written. *)
Theorem draw_resamples_without_memoization (canvas : HTMLCanvasElement)
    (ctx : nat) (data : Float32Array) (speaking : speakingState) (σ : State) :
  let τ := (drawSpeechVisual Math_sin Math_cos Math_PI Date_now canvas ctx
              data speaking σ).2 in
  ∃ points,
    normalizeArray data 10 true false σ
    = (Normal (length (arrays σ)),
       {| arrays := arrays τ; dataMap := dataMap τ; contexts := contexts σ |}) ∧
    arrays τ = arrays σ ++ [points] ∧
    length points = 10%nat ∧
    dataMap τ = dataMap σ.
Proof.
  intros τ. exists (resample_val (samples data) 10 true).
  unfold τ. rewrite drawSpeechVisual_run. cbn [snd emit arrays dataMap].
  split; [by apply normalizeArray_miss|].
  split; [done|]. split; [|done].
  by rewrite resample_val_length.
Qed.
End Visualizer_properties.

(** C4 as stated fails: after a call the cache holds nothing for the buffer,
    where a memoized call of [normalizeArray] leaves its array, and a second
    call on the same buffer makes a second array. *)
Lemma draw_does_not_memoize :
  let data := {| buffer_id := 0; samples := scenario_peak |} in
  let canvas := {| width := 300; height := 150 |} in
  let draw := drawSpeechVisual flat flat (of_Z 3) (frozen 0) canvas 0 data user in
  cached (draw initial).2 0%nat (pretty 10) (bool_toString true) = None ∧
  cached (normalizeArray data 10 true true initial).2 0%nat (pretty 10)
    (bool_toString true) = Some 0%nat ∧
  length (arrays (draw (draw initial).2).2) = 2%nat ∧
  ¬ (∀ (σ : State), dataMap (draw σ).2
                    = dataMap (normalizeArray data 10 true true σ).2).
Proof.
  intros data canvas draw.
  assert (H1 : cached (draw initial).2 0%nat (pretty 10) (bool_toString true)
               = None) by (by vm_compute).
  assert (H2 : cached (normalizeArray data 10 true true initial).2 0%nat
                 (pretty 10) (bool_toString true) = Some 0%nat)
    by (by vm_compute).
  split; [done|]. split; [done|]. split; [by vm_compute|].
  intros Heq. unfold cached in H1, H2. rewrite (Heq initial) in H1. congruence.
Qed.

(** * Further properties of normalizeArray *)

(** ** Length of the result, failed calls *)

Lemma resample_val_nil_zero (p : bool) : resample_val [] 0 p = [].
Proof. by destruct p. Qed.

(** X1: the length of the array returned, for every [m] from [0] to the
    length limit of arrays: it is [m], except that [m = 0] with a non-empty
    buffer gives one element; so the empty buffer with [m = 0] gives the
    empty array. *)
Theorem result_length (data : Float32Array) (m : Z) (p memoize : bool)
    (σ : State) :
  0 ≤ m ≤ 4294967295 → computes data m p memoize σ →
  ∃ out,
    returns_array (normalizeArray data m p memoize) σ out ∧
    length out
    = if decide (m = 0 ∧ samples data ≠ []) then 1%nat else Z.to_nat m.
Proof.
  intros Hm Hmiss. exists (resample_val (samples data) m p).
  split; [apply normalizeArray_returns; [lia|done]|].
  destruct (decide (m = 0 ∧ samples data ≠ [])) as [[-> Hne]|Hn].
  - by rewrite resample_val_zero.
  - destruct (decide (m = 0)) as [->|].
    + destruct (samples data) as [|x l]; [by rewrite resample_val_nil_zero|].
      destruct Hn. by split.
    + apply resample_val_length. lia.
Qed.

Lemma result_length_witness :
  ∃ out,
    returns_array
      (normalizeArray {| buffer_id := 0; samples := scenario_peak |} 2 true true)
      initial out ∧
    length out = 2%nat.
Proof.
  apply (result_length {| buffer_id := 0; samples := scenario_peak |} 2 true
           true initial).
  - lia.
  - intros _. reflexivity.
Defined.

(** X2: a call that fails ([m < 0]) leaves the store of arrays and every
    cache entry as they were, so the same call fails again; with [memoize]
    it has nevertheless created the cache object of the buffer. *)
Theorem failed_call_leaves_no_entry (data : Float32Array) (m : Z)
    (p memoize : bool) (σ : State) :
  m < 0 → computes data m p memoize σ →
  let τ := (normalizeArray data m p memoize σ).2 in
  arrays τ = arrays σ ∧
  contexts τ = contexts σ ∧
  (∀ id mKey dKey, cached τ id mKey dKey = cached σ id mKey dKey) ∧
  (normalizeArray data m p memoize τ).1 = Throw RangeError ∧
  (memoize = true → is_Some (dataMap τ !! buffer_id data)).
Proof.
  intros Hm Hmiss τ. unfold τ.
  rewrite normalizeArray_negative by done. cbn [snd arrays contexts].
  assert (Hsame : ∀ id mKey dKey,
            cached {| arrays := arrays σ;
                      dataMap := if memoize
                                 then cache_touch (buffer_id data) (pretty m)
                                        (dataMap σ)
                                 else dataMap σ;
                      contexts := contexts σ |} id mKey dKey
            = cached σ id mKey dKey).
  { intros id mKey dKey. unfold cached. cbn [dataMap].
    destruct memoize; [apply cache_entry_touch|done]. }
  split; [done|]. split; [done|]. split; [done|]. split.
  - rewrite normalizeArray_negative; [done|done|].
    intros Hmemo. rewrite Hsame. by apply Hmiss.
  - intros ->. cbn [dataMap]. unfold cache_touch. by rewrite lookup_insert_eq.
Qed.

Lemma failed_call_leaves_no_entry_witness :
  let data := {| buffer_id := 0; samples := scenario_peak |} in
  let τ := (normalizeArray data (-1) true true initial).2 in
  arrays τ = arrays initial ∧
  contexts τ = contexts initial ∧
  (∀ id mKey dKey, cached τ id mKey dKey = cached initial id mKey dKey) ∧
  (normalizeArray data (-1) true true τ).1 = Throw RangeError ∧
  (true = true → is_Some (dataMap τ !! 0%nat)).
Proof.
  apply (failed_call_leaves_no_entry
           {| buffer_id := 0; samples := scenario_peak |} (-1) true true initial).
  - lia.
  - intros _. reflexivity.
Defined.

(** ** Upsampling: the mode, a single sample *)



Lemma lerp_single (x : Qc) (m : Z) (i : nat) :
  2 ≤ m → lerp [x] m i = Some x.
Proof.
  intros Hm. unfold lerp. cbn [length]. change (Z.of_nat 1 - 1) with 0.
  rewrite Z.mul_0_r.
  assert ((Qc_of_Z 0 / Qc_of_Z (m - 1))%Qc = 0%Qc) as ->.
  { rewrite Z2Qc_inj_0. unfold Qcdiv. apply Qcmult_0_l. }
  change (Qfloor 0%Qc) with 0. change (Qceiling 0%Qc) with 0.
  rewrite decide_False by lia. change (Z.to_nat 0) with 0%nat.
  change ([x] !! 0%nat) with (Some x). cbn [mbind option_bind].
  f_equal. rewrite Z2Qc_inj_0. ring.
Qed.



(** ** Order on the rationals *)

Ltac Qc_to_Q :=
  unfold Qcle, Qclt, Qcdiv, Qcminus, Qcplus, Qcmult, Qcopp, Q2Qc in *;
  cbn [this] in *; rewrite ?Qred_correct in *;
  repeat match goal with
    | |- context [this (Qc_of_Z ?z)] =>
        change (this (Qc_of_Z z)) with (inject_Z z)
    | H : context [this (Qc_of_Z ?z)] |- _ =>
        change (this (Qc_of_Z z)) with (inject_Z z) in H
    end.

Lemma Qc_div_le (s M : Qc) (c : Z) :
  0 < c → (s ≤ M * Qc_of_Z c)%Qc → (s / Qc_of_Z c ≤ M)%Qc.
Proof.
  intros Hc Hs.
  apply (Qcmult_lt_0_le_reg_r _ _ (Qc_of_Z c)).
  - rewrite <- Z2Qc_inj_0. by apply (proj1 (Z2Qc_inj_lt 0 c)).
  - unfold Qcdiv. rewrite <- Qcmult_assoc, Qcmult_inv_l, Qcmult_1_r; [done|].
    apply Qc_of_Z_ne_0. lia.
Qed.

Lemma Qc_div_nonneg (s : Qc) (c : Z) :
  0 < c → (0 ≤ s)%Qc → (0 ≤ s / Qc_of_Z c)%Qc.
Proof.
  intros Hc Hs. unfold Qcdiv. apply Qcmult_nonneg_nonneg; [done|].
  apply Qclt_le_weak, Qcinv_pos.
  rewrite <- Z2Qc_inj_0. by apply (proj1 (Z2Qc_inj_lt 0 c)).
Qed.

Lemma foldl_Qcplus_le (l : list Qc) (a M : Qc) :
  (∀ x, x ∈ l → (x ≤ M)%Qc) →
  (foldl Qcplus a l ≤ a + M * Qc_of_Z (Z.of_nat (length l)))%Qc.
Proof.
  revert a. induction l as [|y l IH]; intros a Hl.
  - cbn [foldl length]. change (Z.of_nat 0) with 0. Qc_to_Q.
    change (inject_Z 0) with 0%Q. lra.
  - cbn [foldl length]. eapply Qcle_trans.
    + apply IH. intros x Hx. apply Hl. by right.
    + assert (Hy : (y ≤ M)%Qc) by (apply Hl; by left).
      rewrite Nat2Z.inj_succ, <- Z.add_1_r, Z2Qc_inj_add, Z2Qc_inj_1.
      Qc_to_Q. lra.
Qed.

Lemma foldl_Qcplus_nonneg (l : list Qc) (a : Qc) :
  (0 ≤ a)%Qc → (∀ x, x ∈ l → (0 ≤ x)%Qc) → (0 ≤ foldl Qcplus a l)%Qc.
Proof.
  revert a. induction l as [|y l IH]; intros a Ha Hl; [done|].
  cbn [foldl]. apply IH.
  - apply Qcplus_nonneg_nonneg; [done|]. apply Hl. by left.
  - intros x Hx. apply Hl. by right.
Qed.

(** The mean of a non-empty list of non-negative values lies between [0]
    and every upper bound of the list. *)
Lemma mean_bounds (l : list Qc) (M : Qc) :
  l ≠ [] → (∀ x, x ∈ l → (0 ≤ x)%Qc) → (∀ x, x ∈ l → (x ≤ M)%Qc) →
  (0 ≤ mean l)%Qc ∧ (mean l ≤ M)%Qc.
Proof.
  intros Hne Hpos HM. unfold mean, Qcsum.
  assert (Hlen : 0 < Z.of_nat (length l)) by (destruct l; [done|cbn [length]; lia]).
  split.
  - apply Qc_div_nonneg; [done|]. by apply foldl_Qcplus_nonneg.
  - apply Qc_div_le; [done|].
    pose proof (foldl_Qcplus_le l 0%Qc M HM) as H.
    by rewrite Qcplus_0_l in H.
Qed.

(** ** Downsampling: order, sign, coverage *)

Lemma bucket_abs_elem (data : list Qc) (m : Z) (j : nat) (v : Qc) :
  v ∈ bucket_abs data m j → ∃ x, x ∈ data ∧ v = Qcabs x.
Proof.
  intros (i & -> & Hi)%list_elem_of_fmap.
  apply bucket_indices_lt in Hi as [Hi _].
  destruct (lookup_lt_is_Some_2 data i Hi) as [x Hx].
  exists x. split; [by eapply list_elem_of_lookup_2|].
  unfold sample_abs. by rewrite Hx.
Qed.



Lemma sample_abs_fmap (data : list Qc) (i : nat) :
  sample_abs data i = default (Qcabs 0) ((Qcabs <$> data) !! i).
Proof. unfold sample_abs. rewrite list_lookup_fmap. by destruct (data !! i). Qed.





(** ** More on the cache *)







Lemma do_call_arrays_length (σ : State) (c : call) :
  (length (arrays (do_call σ c)) ≤ S (length (arrays σ)))%nat.
Proof.
  unfold do_call.
  destruct (normalizeArray_cases (call_data c) (call_m c) (call_peaks c)
              (call_memoize c) σ)
    as [(_ & l' & _ & ->)|[(_ & _ & ->)|(_ & _ & ->)]];
    cbn [snd arrays]; try lia.
  rewrite length_app. cbn [length]. lia.
Qed.

(** X13: in every store reached from the initial one by calls of
    [normalizeArray], whatever their arguments, each cache entry names an
    array of the store, no two entries name the same array, and there is at
    most one array per call made. *)
Theorem reachable_cache_wf (cs : list call) :
  cache_wf (run_calls cs initial) ∧
  (length (arrays (run_calls cs initial)) ≤ length cs)%nat.
Proof.
  split; [apply run_calls_wf, initial_wf|].
  assert (Hgen : ∀ σ, (length (arrays (run_calls cs σ))
                       ≤ length cs + length (arrays σ))%nat).
  { induction cs as [|c cs IH]; intros σ; [done|].
    cbn [run_calls foldl length]. specialize (IH (do_call σ c)).
    unfold run_calls in IH. pose proof (do_call_arrays_length σ c). lia. }
  specialize (Hgen initial). cbn [initial arrays length] in Hgen. lia.
Qed.

(** * Further properties of drawSpeechVisual *)

Lemma Qc_reach (c r cx : Qc) :
  (- 1 ≤ c)%Qc → (c ≤ 1)%Qc → (0 ≤ r)%Qc → (r ≤ Qc_of_Z 45)%Qc →
  (cx - Qc_of_Z 45 ≤ cx + c * r)%Qc ∧ (cx + c * r ≤ cx + Qc_of_Z 45)%Qc.
Proof.
  intros Hc1 Hc2 Hr1 Hr2. Qc_to_Q. change (inject_Z 45) with 45%Q in *.
  split; nra.
Qed.

Lemma Qc_radius (s : Qc) :
  (- 1 ≤ s)%Qc → (s ≤ 1)%Qc →
  (Qc_of_Z 35 ≤ Qc_of_Z 40 + s * Qc_of_Z 5)%Qc ∧
  (Qc_of_Z 40 + s * Qc_of_Z 5 ≤ Qc_of_Z 45)%Qc.
Proof.
  intros Hs1 Hs2. Qc_to_Q.
  change (inject_Z 45) with 45%Q. change (inject_Z 40) with 40%Q.
  change (inject_Z 35) with 35%Q. change (inject_Z 5) with 5%Q.
  split; lra.
Qed.

Section Visualizer_geometry.
Variables (Math_sin Math_cos : number → number) (Math_PI : number).
Variable Date_now : nat → number.
Hypothesis sin_range :
  ∀ q, ∃ s, Math_sin (Fin q) = Fin s ∧ (- 1 ≤ s)%Qc ∧ (s ≤ 1)%Qc.
Hypothesis cos_range :
  ∀ q, ∃ c, Math_cos (Fin q) = Fin c ∧ (- 1 ≤ c)%Qc ∧ (c ≤ 1)%Qc.
Hypothesis PI_finite : ∃ π, Math_PI = Fin π.
Hypothesis now_finite : ∀ i, ∃ t, Date_now i = Fin t.

(** The radius of iteration [i] is within [squishFactorMax] of
    [baseRadius], and the point is that far from the centre. *)
Lemma path_point_radius (canvas : HTMLCanvasElement) (i : nat) :
  ∃ c s r : Qc,
    (- 1 ≤ c)%Qc ∧ (c ≤ 1)%Qc ∧ (- 1 ≤ s)%Qc ∧ (s ≤ 1)%Qc ∧
    (Qc_of_Z 35 ≤ r)%Qc ∧ (r ≤ Qc_of_Z 45)%Qc ∧
    path_point Math_sin Math_cos Math_PI Date_now canvas i
    = (Fin (Qc_of_Z (Z.of_nat (width canvas)) / Qc_of_Z 2 + c * r),
       Fin (Qc_of_Z (Z.of_nat (height canvas)) / Qc_of_Z 2 + s * r)).
Proof.
  destruct PI_finite as [π Hπ]. destruct (now_finite i) as [t Ht].
  unfold path_point, angle, squishSpeed, squishFactorMax, baseRadius.
  rewrite Hπ, Ht. unfold of_nat.
  rewrite !of_Z_div, of_Z_div_Fin by done.
  unfold of_Z. cbn [num_mul num_add].
  set (a := (Qc_of_Z (Z.of_nat i) / Qc_of_Z (Z.of_nat numberOfPoints) * π
             * Qc_of_Z 2)%Qc).
  destruct (sin_range (t / Qc_of_Z 200 + a * Qc_of_Z 3)%Qc) as (w & -> & Hw1 & Hw2).
  destruct (cos_range a) as (c & -> & Hc1 & Hc2).
  destruct (sin_range a) as (s & -> & Hs1 & Hs2).
  cbn [num_mul num_add].
  destruct (Qc_radius w Hw1 Hw2) as [Hr1 Hr2].
  by exists c, s, (Qc_of_Z 40 + w * Qc_of_Z 5)%Qc.
Qed.

Lemma path_point_near_centre (canvas : HTMLCanvasElement) (i : nat) :
  near_centre canvas 45
    (path_point Math_sin Math_cos Math_PI Date_now canvas i).1
    (path_point Math_sin Math_cos Math_PI Date_now canvas i).2.
Proof.
  destruct (path_point_radius canvas i)
    as (c & s & r & Hc1 & Hc2 & Hs1 & Hs2 & Hr1 & Hr2 & ->).
  assert (Hr0 : (0 ≤ r)%Qc).
  { eapply Qcle_trans; [|exact Hr1]. by apply (proj1 (Z2Qc_inj_le 0 35)). }
  eexists _, _. split; [done|]. split; [done|].
  destruct (Qc_reach c r (Qc_of_Z (Z.of_nat (width canvas)) / Qc_of_Z 2)
              Hc1 Hc2 Hr0 Hr2).
  destruct (Qc_reach s r (Qc_of_Z (Z.of_nat (height canvas)) / Qc_of_Z 2)
              Hs1 Hs2 Hr0 Hr2).
  done.
Qed.

(** X14: when [Math.sin] and [Math.cos] take their values in [-1, 1] and
    the clock and [Math.PI] are finite, every point of the path a call
    draws is at most [baseRadius + squishFactorMax = 45] pixels from the
    centre of the canvas on each axis, whatever the buffer. *)
Theorem drawn_path_near_centre (canvas : HTMLCanvasElement) (ctx : nat)
    (data : Float32Array) (speaking : speakingState) (σ : State) :
  ∃ τ ops,
    drawSpeechVisual Math_sin Math_cos Math_PI Date_now canvas ctx data
      speaking σ = (Normal tt, τ) ∧
    ctx_log τ ctx = ctx_log σ ctx ++ ops ∧
    ∀ x y, moveTo x y ∈ ops ∨ lineTo x y ∈ ops → near_centre canvas 45 x y.
Proof.
  eexists _, (frame Math_sin Math_cos Math_PI Date_now canvas).
  rewrite drawSpeechVisual_run. split; [done|]. split.
  { unfold emit, ctx_log. cbn [contexts]. by rewrite lookup_insert_eq. }
  intros x y Hop. unfold frame in Hop.
  assert (Hpt : ∃ i, (x, y)
                     = path_point Math_sin Math_cos Math_PI Date_now canvas i).
  { destruct Hop as [Hop|Hop];
      rewrite !elem_of_app, list_elem_of_fmap in Hop;
      destruct Hop as [Hop|[(i & Hi & _)|Hop]].
    - apply elem_of_cons in Hop as [|Hop]; [done|].
      apply elem_of_cons in Hop as [|Hop]; [done|].
      apply list_elem_of_singleton in Hop. injection Hop as -> ->.
      exists 0%nat. symmetry. apply surjective_pairing.
    - done.
    - repeat (apply elem_of_cons in Hop as [|Hop]; [done|]).
      by apply elem_of_nil in Hop.
    - repeat (apply elem_of_cons in Hop as [|Hop]; [done|]).
      by apply elem_of_nil in Hop.
    - injection Hi as -> ->. exists i. symmetry. apply surjective_pairing.
    - repeat (apply elem_of_cons in Hop as [|Hop]; [done|]).
      by apply elem_of_nil in Hop. }
  destruct Hpt as [i Hi].
  pose proof (path_point_near_centre canvas i) as Hnear.
  by rewrite <- Hi in Hnear.
Qed.
End Visualizer_geometry.

Lemma drawn_path_near_centre_witness :
  let canvas := {| width := 300; height := 150 |} in
  let data := {| buffer_id := 0; samples := scenario_peak |} in
  ∃ τ ops,
    drawSpeechVisual flat flat (of_Z 3) (frozen 0) canvas 0 data user initial
    = (Normal tt, τ) ∧
    ctx_log τ 0%nat = ctx_log initial 0%nat ++ ops ∧
    ∀ x y, moveTo x y ∈ ops ∨ lineTo x y ∈ ops → near_centre canvas 45 x y.
Proof.
  apply (drawn_path_near_centre flat flat (of_Z 3) (frozen 0)).
  - intros q. exists (Qc_of_Z 0). split; [reflexivity|]. split; compute_done.
  - intros q. exists (Qc_of_Z 0). split; [reflexivity|]. split; compute_done.
  - by eexists.
  - intros i. by eexists.
Defined.

(** * The render loop *)

Section Render_properties.
Variables (Math_sin Math_cos : number → number) (Math_PI : number).

Lemma render_source_run (Date_now : nat → number) (c : mounted_canvas)
    (frequencies : option Float32Array) (silence_id : nat)
    (speaking : speakingState) (σ : State) :
  render_source Math_sin Math_cos Math_PI Date_now (Some c) frequencies
    silence_id speaking σ
  = (Normal tt,
     emit (context2d c)
       (clearRect (of_Z 0) (of_Z 0) (of_nat (width (element c)))
          (of_nat (height (element c)))
        :: frame Math_sin Math_cos Math_PI Date_now (element c))
       {| arrays := arrays σ
                    ++ [resample_val
                          (samples (source_data frequencies silence_id))
                          10 true];
          dataMap := dataMap σ;
          contexts := contexts σ |}).
Proof.
  unfold render_source. unfold mbind at 1, M_bind at 1.
  rewrite ctx_call_emit, drawSpeechVisual_run.
  fold (source_data frequencies silence_id).
  unfold emit, ctx_log. cbn [arrays dataMap contexts].
  rewrite lookup_insert_eq, insert_insert_eq. cbn [default from_option id].
  by rewrite <- app_assoc.
Qed.

Lemma render_source_none (Date_now : nat → number)
    (frequencies : option Float32Array) (silence_id : nat)
    (speaking : speakingState) (σ : State) :
  render_source Math_sin Math_cos Math_PI Date_now None frequencies
    silence_id speaking σ
  = (Normal tt, σ).
Proof. done. Qed.

(** X15: a tick with both canvases mounted returns normally; each context
    receives [clearRect] over its canvas and then the frame of
    [drawSpeechVisual], which starts with the same [clearRect] again, the
    server's frame with the clock readings that follow the client's; no
    other context and no cache entry is touched. *)
Theorem render_paints_both_canvases (t : tick) (c s : mounted_canvas)
    (σ : State) :
  clientCanvas t = Some c → serverCanvas t = Some s →
  context2d c ≠ context2d s →
  ∃ τ,
    render Math_sin Math_cos Math_PI t σ = (Normal tt, τ) ∧
    ctx_log τ (context2d c)
    = ctx_log σ (context2d c)
      ++ clearRect (of_Z 0) (of_Z 0) (of_nat (width (element c)))
           (of_nat (height (element c)))
         :: frame Math_sin Math_cos Math_PI (tick_clock t) (element c) ∧
    ctx_log τ (context2d s)
    = ctx_log σ (context2d s)
      ++ clearRect (of_Z 0) (of_Z 0) (of_nat (width (element s)))
           (of_nat (height (element s)))
         :: frame Math_sin Math_cos Math_PI
              (λ i, tick_clock t (S numberOfPoints + i)%nat) (element s) ∧
    (∀ ctx, ctx ≠ context2d c → ctx ≠ context2d s →
            contexts τ !! ctx = contexts σ !! ctx) ∧
    dataMap τ = dataMap σ.
Proof.
  intros Hc Hs Hne. eexists. unfold render. rewrite Hc, Hs.
  unfold mbind at 1, M_bind at 1. rewrite !render_source_run.
  split; [reflexivity|]. unfold emit, ctx_log. cbn [arrays dataMap contexts clock_reads].
  split; [|split; [|split; [|done]]].
  - by rewrite lookup_insert_ne, lookup_insert_eq by done.
  - by rewrite lookup_insert_eq, lookup_insert_ne by done.
  - intros ctx H1 H2. by rewrite !lookup_insert_ne by done.
Qed.

Lemma render_run_arrays (t : tick) (σ : State) :
  (render Math_sin Math_cos Math_PI t σ).1 = Normal tt ∧
  dataMap (render Math_sin Math_cos Math_PI t σ).2 = dataMap σ ∧
  ∃ new, arrays (render Math_sin Math_cos Math_PI t σ).2 = arrays σ ++ new ∧
         length new = mounted t ∧
         ∀ a, a ∈ new → length a = 10%nat.
Proof.
  unfold render, mounted.
  destruct (clientCanvas t) as [c|], (serverCanvas t) as [s|];
    unfold mbind, M_bind; rewrite ?render_source_none, ?render_source_run;
    cbv beta iota; rewrite ?render_source_none, ?render_source_run;
    cbn [fst snd emit arrays dataMap].
  - split; [done|]. split; [done|]. eexists [_; _].
    rewrite <- app_assoc. split; [done|]. split; [done|].
    intros a [->|[->|[]%elem_of_nil]%elem_of_cons]%elem_of_cons;
      by rewrite resample_val_length.
  - split; [done|]. split; [done|]. eexists [_].
    split; [done|]. split; [done|].
    intros a [->|[]%elem_of_nil]%elem_of_cons. by rewrite resample_val_length.
  - split; [done|]. split; [done|]. eexists [_].
    split; [done|]. split; [done|].
    intros a [->|[]%elem_of_nil]%elem_of_cons. by rewrite resample_val_length.
  - split; [done|]. split; [done|]. exists [].
    rewrite app_nil_r. split; [done|]. split; [done|].
    intros a []%elem_of_nil.
Qed.

(** X16: the render loop never fails and never uses the cache: after any
    ticks, whatever they are given, the cache is as before and the store
    has one new array of length 10 for each mounted canvas of each tick;
    a tick with no canvas mounted changes nothing. *)
Theorem render_loop_allocates_per_tick (ts : list tick) (σ : State) :
  (∀ t τ, (render Math_sin Math_cos Math_PI t τ).1 = Normal tt) ∧
  dataMap (run_ticks Math_sin Math_cos Math_PI ts σ) = dataMap σ ∧
  (∃ new,
     arrays (run_ticks Math_sin Math_cos Math_PI ts σ) = arrays σ ++ new ∧
     length new = sum_list (mounted <$> ts) ∧
     ∀ a, a ∈ new → length a = 10%nat) ∧
  (∀ t, clientCanvas t = None → serverCanvas t = None →
        render Math_sin Math_cos Math_PI t σ = (Normal tt, σ)).
Proof.
  split; [intros t τ; apply render_run_arrays|].
  split; [|split].
  - revert σ. induction ts as [|t ts IH]; intros σ; [done|].
    cbn [run_ticks foldl]. unfold run_ticks in IH. rewrite IH.
    apply render_run_arrays.
  - revert σ. induction ts as [|t ts IH]; intros σ.
    + exists []. rewrite app_nil_r. split; [done|]. split; [done|].
      intros a []%elem_of_nil.
    + cbn [run_ticks foldl]. unfold run_ticks in IH.
      destruct (render_run_arrays t σ) as (_ & _ & new & Hnew & Hlen & Hten).
      destruct (IH (render Math_sin Math_cos Math_PI t σ).2)
        as (new' & -> & Hlen' & Hten').
      exists (new ++ new'). rewrite Hnew, <- app_assoc.
      split; [done|]. split.
      * rewrite length_app, Hlen, Hlen'. by cbn.
      * intros a [?|?]%elem_of_app; auto.
  - intros t Hc Hs. unfold render. rewrite Hc, Hs. done.
Qed.
End Render_properties.

Lemma render_paints_both_canvases_witness :
  let c := {| element := {| width := 300; height := 150 |}; context2d := 0 |} in
  let s := {| element := {| width := 300; height := 150 |}; context2d := 1 |} in
  let t := {| tick_clock := frozen 0;
              clientCanvas := Some c; serverCanvas := Some s;
              userFrequency := None;
              aiFrequency := Some {| buffer_id := 0; samples := scenario_peak |};
              user_silence := 1; ai_silence := 2 |} in
  ∃ τ,
    render flat flat (of_Z 3) t initial = (Normal tt, τ) ∧
    ctx_log τ 0%nat
    = ctx_log initial 0%nat
      ++ clearRect (of_Z 0) (of_Z 0) (of_nat 300) (of_nat 150)
         :: frame flat flat (of_Z 3) (frozen 0) (element c) ∧
    ctx_log τ 1%nat
    = ctx_log initial 1%nat
      ++ clearRect (of_Z 0) (of_Z 0) (of_nat 300) (of_nat 150)
         :: frame flat flat (of_Z 3)
              (λ i, frozen 0 (S numberOfPoints + i)%nat) (element s) ∧
    (∀ ctx, ctx ≠ 0%nat → ctx ≠ 1%nat →
            contexts τ !! ctx = contexts initial !! ctx) ∧
    dataMap τ = dataMap initial.
Proof.
  intros c s t.
  apply (render_paints_both_canvases flat flat (of_Z 3) t c s initial).
  - reflexivity.
  - reflexivity.
  - simpl. lia.
Defined.

Lemma render_loop_allocates_per_tick_witness :
  let t := {| tick_clock := frozen 0;
              clientCanvas := None; serverCanvas := None;
              userFrequency := None; aiFrequency := None;
              user_silence := 0; ai_silence := 1 |} in
  render flat flat (of_Z 3) t initial = (Normal tt, initial).
Proof.
  intros t.
  apply (render_loop_allocates_per_tick flat flat (of_Z 3) [t] initial).
  - reflexivity.
  - reflexivity.
Defined.
